(** * The request broker of the Unity MCP server

    A shallow embedding of [ConnectionManager] and of the handlers built on
    it (UnityMcpServer/src/server.py), with the properties of its
    request/response correlation.

    Python objects compared by identity (connections, futures, the message
    dict passed to [send_to_unity]) are numbers.  A coroutine is cut at its
    [await wait_for(...)]: the part before it and the part after it are two
    functions, and a small scheduler interleaves them with the other events
    of the event loop. *)

From stdpp Require Import gmap strings list pretty.
From Stdlib Require Import Ascii.

Set Warnings "-register-all".
Set Warnings "-clear-no-such-hyp".

(** ** Values and messages *)

(** Identity of a [WebSocket] object. *)
Definition WebSocket := nat.

(** Reference to an [asyncio.Future]: its index in the store [futures]. *)
Definition Future := nat.

(** Values of a decoded JSON frame.  Numbers are integers here. *)
Inductive json :=
| JNull
| JBool (b : bool)
| JInt (z : Z)
| JStr (s : string)
| JArr (l : list json)
| JObj (o : list (string * json)).

(** Python truth value, as tested by [if not function_name]. *)
Definition truthy (v : json) : bool :=
  match v with
  | JNull => false
  | JBool b => b
  | JInt z => negb (z =? 0)%Z
  | JStr s => negb (String.eqb s "")
  | JArr l => match l with [] => false | _ => true end
  | JObj o => match o with [] => false | _ => true end
  end.

(** A frame, [Dict[str, Any]].  The key ["id"] is kept apart from the other
    keys: identifiers are strings ([pending_requests : Dict[str, Future]]),
    and [m_id = None] is what [.get("id")] answers with [None]. *)
Record message := Message {
  m_id : option string;
  m_fields : gmap string json }.

Definition get (m : message) (key : string) : option json := m_fields m !! key.

(** [not message.get(key)] *)
Definition falsy (v : option json) : bool :=
  match v with
  | None => true
  | Some x => negb (truthy x)
  end.

(** ** Exceptions *)

Inductive exn :=
| Exception (text : string)
| KeyError (key : string)
| ValueError (text : string)
| RuntimeError (text : string)
| TimeoutError.

(** [repr] of a key without quotes or escapes in it. *)
Definition repr (key : string) : string := "'" +:+ key +:+ "'".

(** [str(e)] *)
Definition str (e : exn) : string :=
  match e with
  | Exception text => text
  | KeyError key => repr key
  | ValueError text => text
  | RuntimeError text => text
  | TimeoutError => ""
  end.

Inductive result (A : Type) :=
| Return (a : A)
| Raise (e : exn).
Arguments Return {A} a.
Arguments Raise {A} e.

(** ** The manager and the objects it shares with the event loop *)

Inductive future_state :=
| FPending
| FResult (response : message)
| FCancelled.

(** [future.done()] *)
Definition done (f : future_state) : bool :=
  match f with
  | FPending => false
  | _ => true
  end.

Inductive log_record :=
| LogInfo (text : string)
| LogWarning (text : string)
| LogError (text : string).

(** The three fields of [ConnectionManager], the store of the futures it
    created, the frames written with [send_json] (oldest first), the
    connections whose transport fails on a write (with the text of the
    error raised), and the log. *)
Record state := State {
  active_connections : list WebSocket;
  unity_connection : option WebSocket;
  pending_requests : gmap string Future;
  futures : list future_state;
  sent : list (WebSocket * message);
  broken : gmap WebSocket string;
  logged : list log_record }.

Definition set_active (f : list WebSocket → list WebSocket) (s : state) : state :=
  State (f (active_connections s)) (unity_connection s) (pending_requests s)
        (futures s) (sent s) (broken s) (logged s).

Definition set_unity (u : option WebSocket) (s : state) : state :=
  State (active_connections s) u (pending_requests s)
        (futures s) (sent s) (broken s) (logged s).

Definition set_pending (f : gmap string Future → gmap string Future) (s : state) : state :=
  State (active_connections s) (unity_connection s) (f (pending_requests s))
        (futures s) (sent s) (broken s) (logged s).

Definition set_futures (f : list future_state → list future_state) (s : state) : state :=
  State (active_connections s) (unity_connection s) (pending_requests s)
        (f (futures s)) (sent s) (broken s) (logged s).

Definition set_sent (f : list (WebSocket * message) → list (WebSocket * message))
    (s : state) : state :=
  State (active_connections s) (unity_connection s) (pending_requests s)
        (futures s) (f (sent s)) (broken s) (logged s).

Definition set_broken (f : gmap WebSocket string → gmap WebSocket string)
    (s : state) : state :=
  State (active_connections s) (unity_connection s) (pending_requests s)
        (futures s) (sent s) (f (broken s)) (logged s).

Definition add_log (r : log_record) (s : state) : state :=
  State (active_connections s) (unity_connection s) (pending_requests s)
        (futures s) (sent s) (broken s) (logged s ++ [r]).

(** [ConnectionManager.__init__] *)
Definition init : state := State [] None ∅ [] [] ∅ [].

(** [websocket.send_json(m)] *)
Definition send_json (s : state) (websocket : WebSocket) (m : message)
    : state * result unit :=
  match broken s !! websocket with
  | Some text => (s, Raise (RuntimeError text))
  | None => (set_sent (λ l, l ++ [(websocket, m)]) s, Return ())
  end.

(** [ConnectionManager.connect]; [websocket.accept()] leaves the manager as
    it is. *)
Definition connect (s : state) (websocket : WebSocket) (client_type : string) : state :=
  let s1 := set_active (λ l, l ++ [websocket]) s in
  if String.eqb client_type "unity"
  then add_log (LogInfo "Unity Editor connected") (set_unity (Some websocket) s1)
  else add_log (LogInfo ("Client connected: " +:+ client_type)) s1.

(** [list.remove(x)]: drops the first occurrence, [None] (a [ValueError])
    when there is none. *)
Fixpoint list_remove (x : WebSocket) (l : list WebSocket) : option (list WebSocket) :=
  match l with
  | [] => None
  | y :: l' => if decide (y = x) then Some l' else cons y <$> list_remove x l'
  end.

(** [ConnectionManager.disconnect] *)
Definition disconnect (s : state) (websocket : WebSocket) : state * result unit :=
  match list_remove websocket (active_connections s) with
  | None => (s, Raise (ValueError "list.remove(x): x not in list"))
  | Some l =>
      let s1 := set_active (λ _, l) s in
      if decide (unity_connection s1 = Some websocket)
      then (add_log (LogInfo "Unity Editor disconnected") (set_unity None s1), Return ())
      else (add_log (LogInfo "Client disconnected") s1, Return ())
  end.

(** The coroutine [send_to_unity], suspended in [wait_for]: the address of
    its [message] (what [id(message)] answers), whether the identifier was
    generated from it, the identifier, its future, and the time at which
    [wait_for] gives up. *)
Record call := Call {
  c_obj : N;
  c_generated : bool;
  c_request_id : string;
  c_future : Future;
  c_deadline : nat }.

(** [timeout=30.0] *)
Definition timeout : nat := 30.

(** [message.get("id", str(id(message)))] *)
Definition request_id_of (obj : N) (m : message) : string :=
  default (pretty obj) (m_id m).

(** [ConnectionManager.send_to_unity] up to its [await asyncio.wait_for]:
    the state, the content of [message] afterwards (it is assigned its
    identifier in place), and either the exception raised or the suspended
    call. *)
Definition send_to_unity_begin (s : state) (now : nat) (obj : N) (m : message)
    : state * message * result call :=
  match unity_connection s with
  | None => (s, m, Raise (Exception "No Unity connection available"))
  | Some unity =>
      let request_id := request_id_of obj m in
      let m' := Message (Some request_id) (m_fields m) in
      let future := length (futures s) in
      let s1 := set_futures (λ l, l ++ [FPending]) s in
      let s2 := set_pending (λ p, <[request_id := future]> p) s1 in
      match send_json s2 unity m' with
      | (s3, Raise e) => (s3, m', Raise e)
      | (s3, Return _) =>
          (s3, m', Return (Call obj (bool_decide (m_id m = None)) request_id
                                future (now + timeout)))
      end
  end.

(** The timer of [wait_for] firing: the future is cancelled unless it is
    done.  The coroutine is told so when the loop resumes it, and the loop
    may run other callbacks first: [handle_unity_response] tests
    [future.done()] for that reason. *)
Definition expire (s : state) (future : Future) : state :=
  match futures s !! future with
  | Some FPending => set_futures (λ l, <[future := FCancelled]> l) s
  | _ => s
  end.

(** What [await asyncio.wait_for(future, ...)] gives the coroutine when the
    loop resumes it; [None] while it stays suspended. *)
Definition wait_for (s : state) (future : Future) : option (result message) :=
  match futures s !! future with
  | Some (FResult response) => Some (Return response)
  | Some FCancelled => Some (Raise TimeoutError)
  | _ => None
  end.

(** [ConnectionManager.send_to_unity] from the outcome of [wait_for] on:
    [del self.pending_requests[request_id]] raises [KeyError] on a missing
    key. *)
Definition send_to_unity_end (s : state) (c : call) (w : result message)
    : state * result message :=
  match w with
  | Return response => (s, Return response)
  | Raise TimeoutError =>
      match pending_requests s !! c_request_id c with
      | Some _ =>
          (set_pending (λ p, delete (c_request_id c) p) s,
           Raise (Exception "Request to Unity timed out"))
      | None => (s, Raise (KeyError (c_request_id c)))
      end
  | Raise e => (s, Raise e)
  end.

(** The [else] branch of [handle_unity_response]; an absent id is printed
    as [None]. *)
Definition unknown_request (s : state) (request_id : option string) : state :=
  add_log (LogWarning ("Received response for unknown request ID: "
                       +:+ default "None" request_id)) s.

(** [ConnectionManager.handle_unity_response]; no key of the pending map is
    [None], so a response without id takes the [else] branch. *)
Definition handle_unity_response (s : state) (response : message) : state :=
  let request_id := m_id response in
  match request_id with
  | None => unknown_request s request_id
  | Some k =>
      match pending_requests s !! k with
      | None => unknown_request s request_id
      | Some future =>
          let s1 := set_pending (λ p, delete k p) s in
          match futures s1 !! future with
          | Some f =>
              if done f then s1
              else set_futures (λ l, <[future := FResult response]> l) s1
          | None => s1
          end
      end
  end.

(** ** The HTTP routes *)

Inductive route :=
| ExecuteMenuItem
| ManageScript
| ManageEditor
| ManageScene
| ManageAsset
| ManageGameObject
| ReadConsole.

Definition function_of (r : route) : string :=
  match r with
  | ExecuteMenuItem => "execute_menu_item"
  | ManageScript => "manage_script"
  | ManageEditor => "manage_editor"
  | ManageScene => "manage_scene"
  | ManageAsset => "manage_asset"
  | ManageGameObject => "manage_gameobject"
  | ReadConsole => "read_console"
  end.

Definition error_prefix (r : route) : string :=
  match r with
  | ExecuteMenuItem => "Error executing menu item: "
  | ManageScript => "Error managing script: "
  | ManageEditor => "Error managing editor: "
  | ManageScene => "Error managing scene: "
  | ManageAsset => "Error managing asset: "
  | ManageGameObject => "Error managing GameObject: "
  | ReadConsole => "Error reading console: "
  end.

Record FunctionResponse := MkFunctionResponse {
  success : bool;
  message_text : option string;
  data : option json;
  error : option string }.

(** [FunctionResponse(success=False, error=str(e))] *)
Definition failure (e : exn) : FunctionResponse :=
  MkFunctionResponse false None None (Some (str e)).

(** The [except Exception as e] of a route. *)
Definition route_except (r : route) (s : state) (e : exn)
    : state * result FunctionResponse :=
  (add_log (LogError (error_prefix r +:+ str e)) s, Return (failure e)).

(** The message a route builds; [params] is [request.dict()]. *)
Definition route_message (r : route) (params : json) : message :=
  Message None {[ "function" := JStr (function_of r); "params" := params ]}.

(** A route up to the suspension of [send_to_unity]. *)
Definition route_begin (r : route) (s : state) (now : nat) (obj : N) (params : json)
    : state * (result FunctionResponse + call) :=
  match send_to_unity_begin s now obj (route_message r params) with
  | (s1, _, Raise e) => let '(s2, out) := route_except r s1 e in (s2, inl out)
  | (s1, _, Return c) => (s1, inr c)
  end.

Section route_end.
(** [FunctionResponse] built from the keys of [response]: the validation
    done by pydantic. *)
Variable parse_response : message → result FunctionResponse.

(** A route from the resumption of [send_to_unity] on. *)
Definition route_end (r : route) (s : state) (c : call) (w : result message)
    : state * result FunctionResponse :=
  match send_to_unity_end s c w with
  | (s1, Return response) =>
      match parse_response response with
      | Return out => (s1, Return out)
      | Raise e => route_except r s1 e
      end
  | (s1, Raise e) => route_except r s1 e
  end.
End route_end.

(** ** The websocket endpoint *)

(** [{"id": message.get("id"), "success": False, "error": text}] *)
Definition error_reply (m : message) (text : string) : message :=
  Message (m_id m) {[ "success" := JBool false; "error" := JStr text ]}.

(** How one turn of the [while True] loop ends: back at [receive_json], or
    suspended in [send_to_unity] with the message as it is by then. *)
Inductive turn :=
| Continue
| Awaiting (m : message) (c : call).

(** The inner [except Exception as e]; an exception raised by its own
    [send_json] leaves the loop. *)
Definition websocket_except (s : state) (websocket : WebSocket) (m : message) (e : exn)
    : state * result turn :=
  let s1 := add_log (LogError ("Error handling client request: " +:+ str e)) s in
  match send_json s1 websocket (error_reply m (str e)) with
  | (s2, Return _) => (s2, Return Continue)
  | (s2, Raise e') => (s2, Raise e')
  end.

(** The [else] branch of the loop, "Handle requests from MCP clients", up to
    the suspension of [send_to_unity]. *)
Definition websocket_request (s : state) (now : nat) (websocket : WebSocket)
    (obj : N) (m : message) : state * result turn :=
  let function_name := get m "function" in
  if falsy function_name
  then
    match send_json s websocket (error_reply m "Missing function name") with
    | (s1, Return _) => (s1, Return Continue)
    | (s1, Raise e) => websocket_except s1 websocket m e
    end
  else
    match send_to_unity_begin s now obj m with
    | (s1, m', Raise e) => websocket_except s1 websocket m' e
    | (s1, m', Return c) => (s1, Return (Awaiting m' c))
    end.

(** The body of the loop for one received [message]; [client_type] is the
    local variable set from the first frame of the connection. *)
Definition websocket_message (s : state) (now : nat) (websocket : WebSocket)
    (client_type : string) (obj : N) (m : message) : state * result turn :=
  if String.eqb client_type "unity"
  then (handle_unity_response s m, Return Continue)
  else websocket_request s now websocket obj m.

(** The body of the loop from the resumption of [send_to_unity] on. *)
Definition websocket_resume (s : state) (websocket : WebSocket) (m : message)
    (c : call) (w : result message) : state * result turn :=
  match send_to_unity_end s c w with
  | (s1, Return response) =>
      match send_json s1 websocket response with
      | (s2, Return _) => (s2, Return Continue)
      | (s2, Raise e) => websocket_except s2 websocket m e
      end
  | (s1, Raise e) => websocket_except s1 websocket m e
  end.

(** The outer [except Exception as e] of the endpoint: two error records,
    then [manager.disconnect] with its own failure passed over. *)
Definition websocket_abort (s : state) (websocket : WebSocket) (e : exn) : state :=
  let s1 := add_log (LogError ("WebSocket error: " +:+ str e)) s in
  let s2 := add_log (LogError "Traceback (most recent call last):") s1 in
  (disconnect s2 websocket).1.

(** ** The event loop *)

(** Who awaits a suspended [send_to_unity]: a route, or the loop of a
    websocket with its [message]. *)
Inductive caller :=
| HttpCaller (r : route)
| WsCaller (websocket : WebSocket) (m : message).

Record task := Task {
  t_caller : caller;
  t_call : call }.

(** The process: the manager and its world, the clock (in the time units of
    [timeout]), the [client_type] of every running [websocket_endpoint], and
    the suspended tasks. *)
Record system := System {
  st : state;
  now : nat;
  sessions : gmap WebSocket string;
  tasks : list task }.

Definition calls (σ : system) : list call := t_call <$> tasks σ.

Definition boot : system := System init 0 ∅ [].

Inductive event :=
| EvTick
| EvOpen (websocket : WebSocket) (client_type : string)
| EvClose (websocket : WebSocket)
| EvBreak (websocket : WebSocket) (text : string)
| EvHttp (r : route) (obj : N) (params : json)
| EvReceive (websocket : WebSocket) (obj : N) (m : message)
| EvDeadline (i : nat)
| EvResume (i : nat).

(** The end of a turn of the loop of [websocket]. *)
Definition settle (σ : system) (ts : list task) (websocket : WebSocket)
    (out : state * result turn) : system :=
  match out with
  | (s1, Return Continue) => System s1 (now σ) (sessions σ) ts
  | (s1, Return (Awaiting m c)) =>
      System s1 (now σ) (sessions σ) (ts ++ [Task (WsCaller websocket m) c])
  | (s1, Raise e) =>
      System (websocket_abort s1 websocket e) (now σ) (delete websocket (sessions σ)) ts
  end.

Section scheduler.
Variable parse_response : message → result FunctionResponse.

(** One step of the loop; [None] when the event cannot happen: a
    connection object is accepted once, a message object has an address no
    live message has ([id] is unique among live objects, and the message
    of a suspended call is live), a timer fires at its deadline, and a
    coroutine is resumed when [wait_for] has an outcome. *)
Definition step (σ : system) (ev : event) : option system :=
  match ev with
  | EvTick => Some (System (st σ) (S (now σ)) (sessions σ) (tasks σ))
  | EvOpen websocket client_type =>
      if decide (websocket ∈ active_connections (st σ)
                 ∨ is_Some (sessions σ !! websocket))
      then None
      else Some (System (connect (st σ) websocket client_type) (now σ)
                        (<[websocket := client_type]> (sessions σ)) (tasks σ))
  | EvClose websocket =>
      match sessions σ !! websocket with
      | None => None
      | Some _ =>
          Some (System (disconnect (st σ) websocket).1 (now σ)
                       (delete websocket (sessions σ)) (tasks σ))
      end
  | EvBreak websocket text =>
      Some (System (set_broken (λ b, <[websocket := text]> b) (st σ)) (now σ)
                   (sessions σ) (tasks σ))
  | EvHttp r obj params =>
      if decide (obj ∈ c_obj <$> calls σ) then None
      else
        match route_begin r (st σ) (now σ) obj params with
        | (s1, inl _) => Some (System s1 (now σ) (sessions σ) (tasks σ))
        | (s1, inr c) =>
            Some (System s1 (now σ) (sessions σ) (tasks σ ++ [Task (HttpCaller r) c]))
        end
  | EvReceive websocket obj m =>
      match sessions σ !! websocket with
      | None => None
      | Some client_type =>
          if decide (obj ∈ c_obj <$> calls σ) then None
          else Some (settle σ (tasks σ) websocket
                       (websocket_message (st σ) (now σ) websocket client_type obj m))
      end
  | EvDeadline i =>
      match tasks σ !! i with
      | None => None
      | Some t =>
          if decide (c_deadline (t_call t) ≤ now σ)
          then Some (System (expire (st σ) (c_future (t_call t))) (now σ)
                            (sessions σ) (tasks σ))
          else None
      end
  | EvResume i =>
      match tasks σ !! i with
      | None => None
      | Some t =>
          match wait_for (st σ) (c_future (t_call t)) with
          | None => None
          | Some w =>
              match t_caller t with
              | HttpCaller r =>
                  Some (System (route_end parse_response r (st σ) (t_call t) w).1
                               (now σ) (sessions σ) (delete i (tasks σ)))
              | WsCaller websocket m =>
                  Some (settle σ (delete i (tasks σ)) websocket
                          (websocket_resume (st σ) websocket m (t_call t) w))
              end
          end
      end
  end.

Fixpoint run (σ : system) (evs : list event) : option system :=
  match evs with
  | [] => Some σ
  | ev :: evs' =>
      match step σ ev with
      | None => None
      | Some σ' => run σ' evs'
      end
  end.

Definition reachable (σ : system) : Prop := ∃ evs, run boot evs = Some σ.
End scheduler.

(** Modelled from the spec: the validation pydantic does for
    [FunctionResponse] is not in the repository.  This validator accepts
    the response frames of the wire format: [success] a boolean, [message]
    and [error] strings when present, [data] anything.  It only instantiates
    [parse_response] in the scenarios below. *)
Definition text_field (m : message) (key : string) : result (option string) :=
  match get m key with
  | None | Some JNull => Return None
  | Some (JStr t) => Return (Some t)
  | Some _ => Raise (ValueError ("validation error for FunctionResponse: " +:+ key))
  end.

Definition parse_wire (m : message) : result FunctionResponse :=
  match get m "success", text_field m "message", text_field m "error" with
  | Some (JBool b), Return msg, Return err =>
      Return (MkFunctionResponse b msg (get m "data") err)
  | Some (JBool _), Raise e, _ | Some (JBool _), _, Raise e => Raise e
  | _, _, _ => Raise (ValueError "validation error for FunctionResponse: success")
  end.

(** * Invariants, footprints and scenarios *)

(** What every state of the loop satisfies, on the fields of the manager
    [ac], [u], [p], the store of futures [fs], the clock [n] and the
    suspended calls [cs]. *)
Record consistent (ac : list WebSocket) (u : option WebSocket)
    (p : gmap string Future) (fs : list future_state) (n : nat)
    (cs : list call) : Prop := Consistent {
  active_nodup : NoDup ac;
  unity_active : ∀ w, u = Some w → w ∈ ac;
  pending_bound : ∀ k f, p !! k = Some f → f < length fs;
  pending_inj : ∀ k1 k2 f, p !! k1 = Some f → p !! k2 = Some f → k1 = k2;
  pending_unresolved : ∀ k f r, p !! k = Some f → fs !! f ≠ Some (FResult r);
  calls_bound : ∀ c, c ∈ cs → c_future c < length fs;
  calls_future_nodup : NoDup (c_future <$> cs);
  calls_obj_nodup : NoDup (c_obj <$> cs);
  calls_generated :
    ∀ c, c ∈ cs → c_generated c = true → c_request_id c = pretty (c_obj c);
  cancelled_late :
    ∀ c, c ∈ cs → fs !! c_future c = Some FCancelled → c_deadline c ≤ n }.

Definition good (s : state) (n : nat) (cs : list call) : Prop :=
  consistent (active_connections s) (unity_connection s)
             (pending_requests s) (futures s) n cs.

Definition Inv (σ : system) : Prop := good (st σ) (now σ) (calls σ).

(** Two states with the same manager and the same futures. *)
Definition same_core (s s' : state) : Prop :=
  active_connections s' = active_connections s
  ∧ unity_connection s' = unity_connection s
  ∧ pending_requests s' = pending_requests s
  ∧ futures s' = futures s.

(** The calls a turn of a websocket loop leaves suspended. *)
Definition after_turn (cs : list call) (r : result turn) : list call :=
  match r with
  | Return (Awaiting _ c) => cs ++ [c]
  | _ => cs
  end.

(** What one operation does to the pending map and to the futures: nothing,
    a new future under a key, a pending future resolved and its key
    deleted, a key deleted, or a pending future cancelled. *)
Inductive pf_effect (s s' : state) : Prop :=
| pf_same :
    pending_requests s' = pending_requests s → futures s' = futures s →
    pf_effect s s'
| pf_register k :
    pending_requests s' = <[k := length (futures s)]> (pending_requests s) →
    futures s' = futures s ++ [FPending] →
    pf_effect s s'
| pf_resolve k f r :
    pending_requests s !! k = Some f → futures s !! f = Some FPending →
    pending_requests s' = delete k (pending_requests s) →
    futures s' = <[f := FResult r]> (futures s) →
    pf_effect s s'
| pf_forget k :
    pending_requests s' = delete k (pending_requests s) → futures s' = futures s →
    pf_effect s s'
| pf_cancel f :
    futures s !! f = Some FPending →
    pending_requests s' = pending_requests s →
    futures s' = <[f := FCancelled]> (futures s) →
    pf_effect s s'.

(** An operation of the correlator: the connections stay as they are. *)
Definition effect (s s' : state) : Prop :=
  active_connections s' = active_connections s
  ∧ unity_connection s' = unity_connection s
  ∧ pf_effect s s'.

(** How a step changes the connections, after the state [s1] its
    correlator operation leaves. *)
Inductive conn_change (s1 : state) (σ σ' : system) : Prop :=
| conn_same :
    same_core s1 (st σ') → sessions σ' = sessions σ → conn_change s1 σ σ'
| conn_open websocket client_type :
    websocket ∉ active_connections s1 →
    st σ' = connect s1 websocket client_type →
    sessions σ' = <[websocket := client_type]> (sessions σ) →
    conn_change s1 σ σ'
| conn_close websocket s2 :
    same_core s1 s2 →
    st σ' = (disconnect s2 websocket).1 →
    sessions σ' = delete websocket (sessions σ) →
    conn_change s1 σ σ'.

(** A future no entry of the pending map refers to, created and not
    resolved. *)
Definition orphan (f : Future) (s : state) : Prop :=
  f < length (futures s)
  ∧ (∀ k, pending_requests s !! k ≠ Some f)
  ∧ (∀ r, futures s !! f ≠ Some (FResult r)).

(** The state the loop is in after [evs], with [parse_wire] as validator. *)
Definition after (evs : list event) : system :=
  default boot (run parse_wire boot evs).

Definition ping (k : option string) : message :=
  Message k {[ "function" := JStr "ping"; "params" := JObj [] ]}.

Definition pong (k : string) : message :=
  Message (Some k) {[ "success" := JBool true; "data" := JStr "pong" ]}.

(** An executor [0] and a client [1] whose request ["r1"] is in flight. *)
Definition one_request : list event :=
  [EvOpen 0 "unity"; EvOpen 1 "mcp_client"; EvReceive 1 100%N (ping (Some "r1"))].

Definition call_r1 : call := Call 100%N false "r1" 0 30.

(** Two clients [1] and [2] with the requests ["r1"] and ["r2"] in flight. *)
Definition two_requests : list event :=
  one_request ++ [EvOpen 2 "mcp_client"; EvReceive 2 200%N (ping (Some "r2"))].

(** A second executor [1] registered after the executor [0], and a client
    [2] whose request ["r1"] went to [1]. *)
Definition superseded : list event :=
  [EvOpen 0 "unity"; EvOpen 1 "unity"; EvOpen 2 "mcp_client";
   EvReceive 2 100%N (ping (Some "r1"))].

(** The executor answers the request ["r1"] with a frame that has an id and
    nothing else, and the client's turn is resumed. *)
Definition bare_reply : message := Message (Some "r1") ∅.

Definition bare_answer : list event :=
  one_request ++ [EvReceive 0 101%N bare_reply; EvResume 0].

(** Two clients submit a request under the same id ["r1"]; no response
    comes; after 30 ticks the first call times out and is resumed, then the
    timer of the second call fires. *)
Definition reused_id : list event :=
  [EvOpen 0 "unity"; EvOpen 1 "mcp_client"; EvOpen 2 "mcp_client";
   EvReceive 1 100%N (ping (Some "r1")); EvReceive 2 200%N (ping (Some "r1"))]
  ++ replicate 30 EvTick ++ [EvDeadline 0; EvResume 0; EvDeadline 0].

Definition second_call : call := Call 200%N false "r1" 1 30.

(** One request ["r1"]; its timer fires after 30 ticks, and the response
    arrives before the loop has resumed the call. *)
Definition late_response : list event :=
  one_request ++ replicate 30 EvTick ++ [EvDeadline 0; EvReceive 0 101%N (pong "r1")].

(** Two routes called with an executor connected: both identifiers are
    generated. *)
Definition two_routes : list event :=
  [EvOpen 0 "unity"; EvHttp ManageScene 100%N (JObj []); EvHttp ReadConsole 200%N (JObj [])].

(** The request ["r1"] of the client [1] is in flight; the client [2]
    submits a request under the same id. *)
Definition resubmission : message := ping (Some "r1").

(** The connection in the executor slot was declared as ["unity"]. *)
Definition executor_declared (σ : system) : Prop :=
  ∀ w, unity_connection (st σ) = Some w → sessions σ !! w = Some "unity".

(** ** Further scenarios *)

(** An executor [0] whose transport has failed. *)
Definition broken_executor : list event :=
  [EvOpen 0 "unity"; EvBreak 0 "Cannot call send once a close message has been sent."].

(** ** The discovery surface *)

(** An entry of the list [list_resources] answers with: its [uri] and, for
    each property of its schema in the order written, the name and the
    default the schema gives, if any.  Descriptions, titles and types are
    left out. *)
Record resource := Resource {
  uri : string;
  schema_properties : list (string * option json) }.

Definition list_resources : list resource :=
  [
   Resource "execute_menu_item"
     [("menu_path", None); ("action", Some (JStr "execute"));
      ("parameters", None)];
   Resource "manage_script"
     [("action", None); ("name", None); ("path", None); ("contents", None);
      ("script_type", None); ("namespace", None)];
   Resource "manage_editor"
     [("action", None); ("wait_for_completion", None); ("tool_name", None);
      ("tag_name", None); ("layer_name", None)];
   Resource "manage_scene"
     [("action", None); ("name", None); ("path", None);
      ("build_index", None)];
   Resource "manage_asset"
     [("action", None); ("path", None); ("asset_type", None);
      ("properties", None); ("destination", None); ("search_pattern", None);
      ("filter_type", None); ("filter_date_after", None);
      ("page_number", None); ("page_size", None);
      ("generate_preview", Some (JBool false))];
   Resource "manage_gameobject"
     [("action", None); ("target", None); ("search_method", None);
      ("name", None); ("tag", None); ("parent", None); ("layer", None);
      ("position", None); ("rotation", None); ("scale", None);
      ("component_name", None); ("component_properties", None);
      ("components_to_add", None); ("components_to_remove", None);
      ("search_term", None); ("search_in_children", Some (JBool false));
      ("search_inactive", Some (JBool false));
      ("find_all", Some (JBool false)); ("set_active", None);
      ("primitive_type", None); ("prefab_path", None);
      ("save_as_prefab", Some (JBool false));
      ("prefab_folder", Some (JStr "Assets/Prefabs"))];
   Resource "read_console"
     [("action", None); ("types", None); ("count", None);
      ("filter_text", None); ("since_timestamp", None); ("format", None);
      ("include_stacktrace", None)]
  ].

(** The fields of the request model of a route in the order declared, with
    the default of each; [None] for a field without default. *)
Definition request_fields (r : route) : list (string * option json) :=
  match r with
  | ExecuteMenuItem =>
      [("menu_path", None); ("action", Some (JStr "execute"));
       ("parameters", Some JNull)]
  | ManageScript =>
      [("action", None); ("name", None); ("path", Some (JStr "Assets/"));
       ("contents", Some JNull); ("script_type", Some JNull);
       ("namespace", Some JNull)]
  | ManageEditor =>
      [("action", None); ("wait_for_completion", Some JNull);
       ("tool_name", Some JNull); ("tag_name", Some JNull);
       ("layer_name", Some JNull)]
  | ManageScene =>
      [("action", None); ("name", Some JNull);
       ("path", Some (JStr "Assets/")); ("build_index", Some JNull)]
  | ManageAsset =>
      [("action", None); ("path", None); ("asset_type", Some JNull);
       ("properties", Some JNull); ("destination", Some JNull);
       ("search_pattern", Some JNull); ("filter_type", Some JNull);
       ("filter_date_after", Some JNull); ("page_number", Some JNull);
       ("page_size", Some JNull); ("generate_preview", Some (JBool false))]
  | ManageGameObject =>
      [("action", None); ("target", Some JNull);
       ("search_method", Some JNull); ("name", Some JNull);
       ("tag", Some JNull); ("parent", Some JNull); ("layer", Some JNull);
       ("position", Some JNull); ("rotation", Some JNull);
       ("scale", Some JNull); ("component_name", Some JNull);
       ("component_properties", Some JNull);
       ("components_to_add", Some JNull);
       ("components_to_remove", Some JNull); ("search_term", Some JNull);
       ("search_in_children", Some (JBool false));
       ("search_inactive", Some (JBool false));
       ("find_all", Some (JBool false)); ("set_active", Some JNull);
       ("primitive_type", Some JNull); ("prefab_path", Some JNull);
       ("save_as_prefab", Some (JBool false));
       ("prefab_folder", Some (JStr "Assets/Prefabs"))]
  | ReadConsole =>
      [("action", None); ("types", Some JNull); ("count", Some JNull);
       ("filter_text", Some JNull); ("since_timestamp", Some JNull);
       ("format", Some JNull); ("include_stacktrace", Some JNull)]
  end.

Definition routes : list route :=
  [ExecuteMenuItem; ManageScript; ManageEditor; ManageScene; ManageAsset;
   ManageGameObject; ReadConsole].

(** * The generator of meta files (generate_meta_files.py)

    The directory tree the script walks is a value: a file with its
    content, or a directory with its entries in the order [os.listdir]
    gives them.  A meta file the script writes is a new entry of the
    directory that holds the path; [os.path.exists] of a path is the
    presence of its name among the entries of that directory. *)

Definition base_dir : string := "WindsurfUnityMCP".

(** Meta file template for folders. *)
Definition folder_meta_template : string :=
"fileFormatVersion: 2
guid: {guid}
folderAsset: yes
DefaultImporter:
  externalObjects: {{}}
  userData: 
  assetBundleName: 
  assetBundleVariant: 
".

(** Meta file template for C# scripts. *)
Definition cs_meta_template : string :=
"fileFormatVersion: 2
guid: {guid}
MonoImporter:
  externalObjects: {{}}
  serializedVersion: 2
  defaultReferences: []
  executionOrder: 0
  icon: {{instanceID: 0}}
  userData: 
  assetBundleName: 
  assetBundleVariant: 
".

(** Meta file template for assembly definition files. *)
Definition asmdef_meta_template : string :=
"fileFormatVersion: 2
guid: {guid}
AssemblyDefinitionImporter:
  externalObjects: {{}}
  userData: 
  assetBundleName: 
  assetBundleVariant: 
".

(** Meta file template for text files (README, etc.). *)
Definition text_meta_template : string :=
"fileFormatVersion: 2
guid: {guid}
TextScriptImporter:
  externalObjects: {{}}
  userData: 
  assetBundleName: 
  assetBundleVariant: 
".

(** Meta file template for package.json. *)
Definition package_meta_template : string :=
"fileFormatVersion: 2
guid: {guid}
PackageManifestImporter:
  externalObjects: {{}}
  userData: 
  assetBundleName: 
  assetBundleVariant: 
".

(** [s.startswith(prefix)] *)
Definition startswith (s prefix : string) : bool := String.prefix prefix s.

(** [s.endswith(suffix)] *)
Fixpoint endswith (s suffix : string) : bool :=
  String.eqb s suffix
  || match s with
     | EmptyString => false
     | String _ s' => endswith s' suffix
     end.

(** [os.path.join(a, b)] of posixpath. *)
Definition path_join (a b : string) : string :=
  if startswith b "/" then b
  else if String.eqb a "" || endswith a "/" then a +:+ b
  else a +:+ "/" +:+ b.

Definition prepend (p : string) (r : result string) : result string :=
  match r with
  | Return s => Return (p +:+ s)
  | Raise e => Raise e
  end.

(** [t.format(guid=guid)] for a template whose replacement fields are plain
    names: a doubled brace is a brace, [{name}] is the argument of that
    name ([KeyError] when it is not [guid]), a single brace is a
    [ValueError].  [field] is the name read so far inside a field. *)
Fixpoint format_from (t : string) (field : option string) (guid : string)
    : result string :=
  match t with
  | EmptyString =>
      match field with
      | None => Return ""
      | Some _ => Raise (ValueError "expected '}' before end of string")
      end
  | String c t' =>
      match field with
      | Some name =>
          if Ascii.eqb c "}"%char
          then if String.eqb name "guid"
               then prepend guid (format_from t' None guid)
               else Raise (KeyError name)
          else format_from t' (Some (name +:+ String c "")) guid
      | None =>
          if Ascii.eqb c "{"%char
          then match t' with
               | String c' t'' =>
                   if Ascii.eqb c' "{"%char
                   then prepend "{" (format_from t'' None guid)
                   else format_from t' (Some "") guid
               | EmptyString =>
                   Raise (ValueError "Single '{' encountered in format string")
               end
          else if Ascii.eqb c "}"%char
          then match t' with
               | String c' t'' =>
                   if Ascii.eqb c' "}"%char
                   then prepend "}" (format_from t'' None guid)
                   else Raise (ValueError "Single '}' encountered in format string")
               | EmptyString =>
                   Raise (ValueError "Single '}' encountered in format string")
               end
          else prepend (String c "") (format_from t' None guid)
      end
  end.

Definition format (t guid : string) : result string := format_from t None guid.

(** [s.replace("-", "")] *)
Fixpoint remove_dashes (s : string) : string :=
  match s with
  | EmptyString => ""
  | String c s' =>
      if Ascii.eqb c "-"%char then remove_dashes s' else String c (remove_dashes s')
  end.

(** Whether ["-"] occurs in [s]. *)
Fixpoint has_dash (s : string) : bool :=
  match s with
  | EmptyString => false
  | String c s' => Ascii.eqb c "-" || has_dash s'
  end.

(** [generate_guid], from the text of [uuid.uuid4()]. *)
Definition generate_guid (uuid : string) : string := remove_dashes uuid.

Inductive node :=
| File (content : string)
| Dir (entries : list (string * node)).

(** What the script shares with its environment besides the tree: how many
    uuids it has drawn, and the lines it has printed. *)
Record shell := Shell {
  next_uuid : nat;
  stdout : list string }.

Definition print (w : shell) (line : string) : shell :=
  Shell (next_uuid w) (stdout w ++ [line]).

Inductive script_error :=
| NotADirectoryError (path : string)
| FormatError (e : exn).

(** The template [create_meta_file] picks. *)
Definition template_for (path : string) (is_folder : bool) : string :=
  if is_folder then folder_meta_template
  else if endswith path ".cs" then cs_meta_template
  else if endswith path ".asmdef" then asmdef_meta_template
  else if endswith path "package.json" then package_meta_template
  else if endswith path ".md" || endswith path ".txt" then text_meta_template
  else text_meta_template.

(** [create_meta_file(path, is_folder)]; [names] are the names in the
    directory that holds [path], [name] the last component of [path], and
    [uuid4 n] the text of the [n]-th uuid drawn.  The result is the entry
    added to that directory, if any.  [open(meta_path, "w")] has made the
    file when [format] is evaluated. *)
Definition create_meta_file (uuid4 : nat → string) (names : list string)
    (path name : string) (is_folder : bool) (w : shell)
    : list (string * node) * shell * option script_error :=
  let meta_path := path +:+ ".meta" in
  if bool_decide (name +:+ ".meta" ∈ names)
  then ([], print w ("Meta file already exists: " +:+ meta_path), None)
  else
    let guid := generate_guid (uuid4 (next_uuid w)) in
    let w1 := Shell (S (next_uuid w)) (stdout w) in
    match format (template_for path is_folder) guid with
    | Raise e => ([(name +:+ ".meta", File "")], w1, Some (FormatError e))
    | Return text =>
        ([(name +:+ ".meta", File text)],
         print w1 ("Created meta file: " +:+ meta_path), None)
    end.

(** [item.startswith(".") or item.endswith(".meta")] *)
Definition skipped (item : string) : bool :=
  startswith item "." || endswith item ".meta".

(** The loop of [process_directory] over the items [os.listdir] gave, with
    [rec] for the call of [process_directory] on a subdirectory: [base] are
    the names listed, [kept] the items gone through, as they are by now,
    and [new] the entries added to the directory so far. *)
Fixpoint process_items
    (rec : list string → string → string → node → shell →
           list (string * node) * node * shell * option script_error)
    (uuid4 : nat → string) (directory : string) (base : list string)
    (items kept new : list (string * node)) (w : shell)
    : list (string * node) * list (string * node) * shell * option script_error :=
  match items with
  | [] => (kept, new, w, None)
  | (item, child) :: rest =>
      let path := path_join directory item in
      if skipped item
      then process_items rec uuid4 directory base rest (kept ++ [(item, child)]) new w
      else
        let here := base ++ (fst <$> new) in
        match child with
        | Dir _ =>
            match rec here path item child w with
            | (added, child', w', None) =>
                process_items rec uuid4 directory base rest
                  (kept ++ [(item, child')]) (new ++ added) w'
            | (added, child', w', Some e) =>
                (kept ++ (item, child') :: rest, new ++ added, w', Some e)
            end
        | File _ =>
            match create_meta_file uuid4 here path item false w with
            | (added, w', None) =>
                process_items rec uuid4 directory base rest
                  (kept ++ [(item, child)]) (new ++ added) w'
            | (added, w', Some e) =>
                (kept ++ (item, child) :: rest, new ++ added, w', Some e)
            end
        end
  end.

(** [process_directory(directory)] on the node [n] at that path, whose last
    component is [name] and which lies among [names]: the entries added
    beside it, the node afterwards, and the exception raised, if any.
    [os.listdir] of a file raises [NotADirectoryError]. *)
Fixpoint process_directory (uuid4 : nat → string) (names : list string)
    (directory name : string) (n : node) (w : shell) {struct n}
    : list (string * node) * node * shell * option script_error :=
  match create_meta_file uuid4 names directory name true w with
  | (added, w1, Some e) => (added, n, w1, Some e)
  | (added, w1, None) =>
      match n with
      | File _ => (added, n, w1, Some (NotADirectoryError directory))
      | Dir es =>
          let '(kept, new, w2, err) :=
            process_items (process_directory uuid4) uuid4 directory (fst <$> es)
              es [] [] w1 in
          (added, Dir (kept ++ new), w2, err)
      end
  end.

(** The entry of a name in a directory. *)
Fixpoint entry (name : string) (es : list (string * node)) : option node :=
  match es with
  | [] => None
  | (item, n) :: rest => if String.eqb item name then Some n else entry name rest
  end.

Fixpoint set_entry (name : string) (n : node) (es : list (string * node))
    : list (string * node) :=
  match es with
  | [] => []
  | (item, n0) :: rest =>
      if String.eqb item name then (item, n) :: rest
      else (item, n0) :: set_entry name n rest
  end.

(** The script run in the directory [cwd]. *)
Definition main (uuid4 : nat → string) (cwd : list (string * node)) (w : shell)
    : list (string * node) * shell * option script_error :=
  match entry base_dir cwd with
  | Some n =>
      let w1 := print w ("Processing " +:+ base_dir +:+ "...") in
      match process_directory uuid4 (fst <$> cwd) base_dir base_dir n w1 with
      | (added, n', w2, None) =>
          (set_entry base_dir n' cwd ++ added, print w2 "Done!", None)
      | (added, n', w2, Some e) => (set_entry base_dir n' cwd ++ added, w2, Some e)
      end
  | None => (cwd, print w ("Error: " +:+ base_dir +:+ " directory not found"), None)
  end.

(** Every item the script does not skip has its meta file beside it, in
    this directory and in the directories below that it enters. *)
Fixpoint tagged (n : node) : bool :=
  match n with
  | File _ => true
  | Dir es =>
      forallb (λ e, skipped e.1
                    || (bool_decide (e.1 +:+ ".meta" ∈ es.*1) && tagged e.2)) es
  end.

(** [n'] is [n] with meta files added: the entries of a directory keep
    their names and their order, a file and a skipped entry stay as they
    are, and the entries added after them are files named after an item
    that is not skipped, under a name that was not there. *)
Inductive grown : node → node → Prop :=
| grown_file c : grown (File c) (File c)
| grown_dir es kept new :
    Forall2 (λ e e', e.1 = e'.1
                     ∧ (skipped e.1 = true → e' = e)
                     ∧ grown e.2 e'.2) es kept →
    Forall (λ e, ∃ item c, e = (item +:+ ".meta", File c)
                           ∧ item ∈ es.*1 ∧ skipped item = false
                           ∧ e.1 ∉ es.*1) new →
    grown (Dir es) (Dir (kept ++ new)).

(** An item of a directory and what the loop of [process_directory] has made
    of it. *)
Definition item_kept (e e' : string * node) : Prop :=
  e.1 = e'.1 ∧ (skipped e.1 = true → e' = e) ∧ grown e.2 e'.2.

(** An entry the loop has added to the directory with the entries [es]. *)
Definition meta_added (es : list (string * node)) (e : string * node) : Prop :=
  ∃ item c, e = (item +:+ ".meta", File c)
            ∧ item ∈ es.*1 ∧ skipped item = false ∧ e.1 ∉ es.*1.

(** An item gone through: skipped, or with its meta file among the names
    listed and the entries added, and with its own items tagged. *)
Definition item_tagged (base : list string) (new : list (string * node))
    (e : string * node) : Prop :=
  skipped e.1 = true ∨ (e.1 +:+ ".meta" ∈ base ++ new.*1 ∧ tagged e.2 = true).

(** What a call of [process_directory] on the directory [n] gives. *)
Definition processes (uuid4 : nat → string) (n : node) : Prop :=
  ∀ names directory name w,
    ∃ added n' w',
      process_directory uuid4 names directory name n w = (added, n', w', None)
      ∧ grown n n' ∧ tagged n' = true
      ∧ name +:+ ".meta" ∈ names ++ added.*1
      ∧ Forall (λ e, ∃ c, e = (name +:+ ".meta", File c) ∧ e.1 ∉ names) added
      ∧ next_uuid w ≤ next_uuid w'.

(** * Invariants of the event loop *)

Lemma list_remove_Some x l l' :
  list_remove x l = Some l' →
  x ∈ l ∧ l' `sublist_of` l ∧ (NoDup l → x ∉ l') ∧ (∀ y, y ≠ x → y ∈ l → y ∈ l').
Proof.
  revert l'. induction l as [|y l IH]; intros l' H; simpl in H; [done|].
  case_decide as Hy.
  - simplify_eq. split_and!; [left | by apply sublist_cons | |].
    + intros Hnd. by apply NoDup_cons in Hnd as [? _].
    + intros y Hy [->|?]%elem_of_cons; done.
  - destruct (list_remove x l) as [l0|] eqn:E; simplify_eq/=.
    destruct (IH _ eq_refl) as (Hin & Hsub & Hnot & Hrest).
    split_and!; [by right | by apply sublist_skip | |].
    + intros Hnd. apply NoDup_cons in Hnd as [_ Hnd].
      rewrite not_elem_of_cons. split; [done | by apply Hnot].
    + intros z Hz [->|?]%elem_of_cons; [left | right; auto].
Qed.

Lemma list_remove_None x l : list_remove x l = None ↔ x ∉ l.
Proof.
  induction l as [|y l IH]; simpl.
  - split; [intros _; apply not_elem_of_nil | done].
  - case_decide as Hy.
    + subst. split; [done | intros []; left].
    + rewrite not_elem_of_cons, fmap_None, IH. split; [by intros ? | by intros [_ ?]].
Qed.

Lemma fmap_inj_on_NoDup {A B} (f : A → B) (l : list A) x y :
  NoDup (f <$> l) → x ∈ l → y ∈ l → f x = f y → x = y.
Proof.
  intros Hnd [i Hi]%list_elem_of_lookup [j Hj]%list_elem_of_lookup Hf.
  assert (i = j) as ->; [|congruence].
  eapply NoDup_lookup; [exact Hnd | |]; rewrite list_lookup_fmap.
  - by rewrite Hi.
  - by rewrite Hj, Hf.
Qed.

Section consistent.
Context {ac : list WebSocket} {u : option WebSocket} {p : gmap string Future}
        {fs : list future_state} {n : nat} {cs : list call}.
Hypothesis H : consistent ac u p fs n cs.

Lemma consistent_tick : consistent ac u p fs (S n) cs.
Proof.
  destruct H. constructor; try done.
  intros c Hc Hf. specialize (cancelled_late0 c Hc Hf). lia.
Qed.

Lemma consistent_open w u' :
  w ∉ ac → (u' = u ∨ u' = Some w) → consistent (ac ++ [w]) u' p fs n cs.
Proof.
  intros Hw Hu. destruct H. constructor; try done.
  - apply NoDup_app. split_and!; [done | | apply NoDup_singleton].
    intros x Hx ->%list_elem_of_singleton. done.
  - intros x Hx. rewrite elem_of_app, list_elem_of_singleton.
    destruct Hu as [-> | ->]; [left; auto | right; congruence].
Qed.

Lemma consistent_close ac' u' :
  ac' `sublist_of` ac → (∀ w, u' = Some w → w ∈ ac') →
  consistent ac' u' p fs n cs.
Proof.
  intros Hsub Hu. destruct H. constructor; eauto using sublist_NoDup.
Qed.

(** A new future and its entry, with or without a call suspended on it. *)
Lemma consistent_register k :
  consistent ac u (<[k := length fs]> p) (fs ++ [FPending]) n cs.
Proof.
  destruct H. constructor; try done.
  - intros k' f. rewrite lookup_insert, length_app. simpl.
    case_decide; [intros [= <-]; lia | intros Hf%pending_bound0; lia].
  - intros k1 k2 f. rewrite !lookup_insert.
    repeat case_decide; subst; try done.
    + intros [= <-] Hf%pending_bound0. lia.
    + intros Hf%pending_bound0 [= <-]. lia.
    + apply pending_inj0.
  - intros k' f r. rewrite lookup_insert. case_decide.
    + intros [= <-]. by rewrite list_lookup_middle.
    + intros Hf. rewrite lookup_app_l by eauto. by eapply pending_unresolved0.
  - intros c Hc%calls_bound0. rewrite length_app. simpl. lia.
  - intros c Hc. rewrite lookup_app_l by eauto. by apply cancelled_late0.
Qed.

Lemma consistent_suspend k o g d :
  o ∉ c_obj <$> cs → (g = true → k = pretty o) →
  consistent ac u (<[k := length fs]> p) (fs ++ [FPending]) n
             (cs ++ [Call o g k (length fs) d]).
Proof.
  intros Ho Hg. pose proof H as [_ _ _ _ _ Hcb Hfn Hon Hgen Hcl].
  destruct (consistent_register k). constructor; try done.
  - intros c. rewrite elem_of_app, list_elem_of_singleton, length_app.
    simpl. intros [Hc%Hcb | ->]; simpl; lia.
  - rewrite fmap_app. apply NoDup_app. split_and!; [done | | apply NoDup_singleton].
    intros f [c [-> Hc%Hcb]]%list_elem_of_fmap Heq%list_elem_of_singleton.
    simpl in Heq. lia.
  - rewrite fmap_app. apply NoDup_app. split_and!; [done | | apply NoDup_singleton].
    intros o' Ho' ->%list_elem_of_singleton. done.
  - intros c. rewrite elem_of_app, list_elem_of_singleton.
    intros [Hc | ->]; simpl; auto.
  - intros c. rewrite elem_of_app, list_elem_of_singleton.
    intros [Hc | ->]; simpl; [auto|].
    by rewrite list_lookup_middle.
Qed.

Lemma consistent_forget k : consistent ac u (delete k p) fs n cs.
Proof.
  destruct H. constructor; try done.
  - intros k' f [_ Hf]%lookup_delete_Some. eauto.
  - intros k1 k2 f [_ H1]%lookup_delete_Some [_ H2]%lookup_delete_Some. eauto.
  - intros k' f r [_ Hf]%lookup_delete_Some. eauto.
Qed.

Lemma consistent_resolve k f r :
  p !! k = Some f → consistent ac u (delete k p) (<[f := FResult r]> fs) n cs.
Proof.
  intros Hk. pose proof H as [_ _ Hpb Hinj Hun Hcb _ _ _ Hcl].
  destruct consistent_forget with (k := k). constructor; try done.
  - intros k' f'. rewrite length_insert. eauto.
  - intros k' f' r' [Hne Hf]%lookup_delete_Some.
    rewrite list_lookup_insert_ne; [eauto|].
    intros <-. apply Hne. eauto.
  - intros c Hc. rewrite length_insert. eauto.
  - intros c Hc. destruct (decide (f = c_future c)) as [<-|Hne].
    + rewrite list_lookup_insert_eq by eauto. done.
    + rewrite list_lookup_insert_ne by done. eauto.
Qed.

Lemma consistent_expire c :
  c ∈ cs → c_deadline c ≤ n →
  consistent ac u p (<[c_future c := FCancelled]> fs) n cs.
Proof.
  intros Hc Hd. pose proof H as [? ? Hpb Hinj Hun Hcb Hfn ? ? Hcl].
  constructor; try done.
  - intros k f. rewrite length_insert. eauto.
  - intros k f r Hk. destruct (decide (c_future c = f)) as [<-|Hne].
    + rewrite list_lookup_insert_eq by eauto. done.
    + rewrite list_lookup_insert_ne by done. eauto.
  - intros c' Hc'. rewrite length_insert. eauto.
  - intros c' Hc'. destruct (decide (c_future c = c_future c')) as [Heq|Hne].
    + intros _. by rewrite <-(fmap_inj_on_NoDup c_future cs c c' Hfn Hc Hc' Heq).
    + rewrite list_lookup_insert_ne by done. eauto.
Qed.

Lemma consistent_return i : consistent ac u p fs n (delete i cs).
Proof.
  destruct H. constructor; try done.
  - intros c Hc%list_elem_of_delete_inv. eauto.
  - rewrite list_fmap_delete. eauto using sublist_NoDup, sublist_delete.
  - rewrite list_fmap_delete. eauto using sublist_NoDup, sublist_delete.
  - intros c Hc%list_elem_of_delete_inv. eauto.
  - intros c Hc%list_elem_of_delete_inv. eauto.
Qed.
End consistent.

Lemma good_same_core s s' n cs : same_core s s' → good s n cs → good s' n cs.
Proof. unfold good. intros (-> & -> & -> & ->). done. Qed.

Lemma same_core_refl s : same_core s s.
Proof. by repeat split. Qed.

Lemma same_core_trans s1 s2 s3 : same_core s1 s2 → same_core s2 s3 → same_core s1 s3.
Proof. unfold same_core. intros (?&?&?&?) (?&?&?&?). split_and!; congruence. Qed.

Lemma send_json_core s websocket m : same_core s (send_json s websocket m).1.
Proof. unfold send_json. destruct (broken s !! websocket); by repeat split. Qed.

Lemma websocket_except_core s websocket m e :
  same_core s (websocket_except s websocket m e).1.
Proof.
  unfold websocket_except.
  pose proof (send_json_core
    (add_log (LogError ("Error handling client request: " +:+ str e)) s)
    websocket (error_reply m (str e))) as Hc.
  destruct (send_json _ _ _) as [s2 [[]|e']]; exact Hc.
Qed.

Lemma good_begin s n cs now obj m s' m' r :
  good s n cs → obj ∉ c_obj <$> cs →
  send_to_unity_begin s now obj m = (s', m', r) →
  good s' n (match r with Return c => cs ++ [c] | Raise _ => cs end).
Proof.
  unfold good, send_to_unity_begin, send_json. intros Hg Hobj Hb.
  destruct (unity_connection s) as [w|] eqn:Hu; [|simplify_eq/=; by rewrite Hu].
  simpl in Hb. destruct (broken s !! w); simplify_eq/=; rewrite Hu.
  - by apply consistent_register.
  - apply consistent_suspend; [done.. |].
    unfold request_id_of. intros Hid%bool_decide_eq_true. by rewrite Hid.
Qed.

Lemma good_handle s n cs response :
  good s n cs → good (handle_unity_response s response) n cs.
Proof.
  unfold good, handle_unity_response. intros Hg.
  destruct (m_id response) as [k|]; simpl; [|done].
  destruct (pending_requests s !! k) as [f|] eqn:Hk; simpl; [|done].
  destruct (futures s !! f) as [[]|]; simpl;
    by (eapply consistent_resolve || apply consistent_forget).
Qed.

Lemma good_expire s n cs c :
  good s n cs → c ∈ cs → c_deadline c ≤ n → good (expire s (c_future c)) n cs.
Proof.
  unfold good, expire. intros Hg Hc Hd.
  destruct (futures s !! c_future c) as [[]|]; simpl; try done.
  by apply consistent_expire.
Qed.

Lemma good_end s n cs c w : good s n cs → good (send_to_unity_end s c w).1 n cs.
Proof.
  unfold good, send_to_unity_end. intros Hg.
  destruct w as [|[]]; simpl; try done.
  destruct (pending_requests s !! c_request_id c); simpl; [|done].
  by apply consistent_forget.
Qed.

Lemma good_disconnect s n cs websocket :
  good s n cs → good (disconnect s websocket).1 n cs.
Proof.
  unfold good, disconnect. intros Hg.
  destruct (list_remove websocket (active_connections s)) as [l|] eqn:Hl; [|done].
  apply list_remove_Some in Hl as (_ & Hsub & _ & Hrest).
  simpl. case_decide as Hu; simpl.
  - by eapply consistent_close.
  - eapply consistent_close; [done.. |].
    intros w Hw. apply Hrest; [congruence|]. by eapply unity_active.
Qed.

Lemma good_abort s n cs websocket e :
  good s n cs → good (websocket_abort s websocket e) n cs.
Proof. intros Hg. unfold websocket_abort. by apply good_disconnect. Qed.

Lemma websocket_except_turn s websocket m e cs :
  after_turn cs (websocket_except s websocket m e).2 = cs.
Proof.
  unfold websocket_except. by destruct (send_json _ _ _) as [s2 [[]|e']].
Qed.

Lemma good_websocket_except s n cs websocket m e :
  good s n cs →
  good (websocket_except s websocket m e).1 n
       (after_turn cs (websocket_except s websocket m e).2).
Proof.
  intros Hg. rewrite websocket_except_turn.
  eapply good_same_core; [apply websocket_except_core | done].
Qed.

Lemma good_websocket_message s n cs now websocket client_type obj m :
  good s n cs → obj ∉ c_obj <$> cs →
  good (websocket_message s now websocket client_type obj m).1 n
       (after_turn cs (websocket_message s now websocket client_type obj m).2).
Proof.
  intros Hg Hobj. unfold websocket_message, websocket_request.
  destruct (String.eqb client_type "unity"); [by apply good_handle|].
  destruct (falsy (get m "function")).
  - pose proof (send_json_core s websocket (error_reply m "Missing function name")) as Hc.
    destruct (send_json _ _ _) as [s1 [[]|e]]; simpl in Hc.
    + by eapply good_same_core.
    + apply good_websocket_except. by eapply good_same_core.
  - destruct (send_to_unity_begin s now obj m) as [[s1 m'] [c|e]] eqn:Hb.
    + exact (good_begin _ _ _ _ _ _ _ _ _ Hg Hobj Hb).
    + apply good_websocket_except. exact (good_begin _ _ _ _ _ _ _ _ _ Hg Hobj Hb).
Qed.

Lemma good_websocket_resume s n cs websocket m c w :
  good s n cs →
  good (websocket_resume s websocket m c w).1 n cs
  ∧ after_turn cs (websocket_resume s websocket m c w).2 = cs.
Proof.
  intros Hg. unfold websocket_resume.
  pose proof (good_end s n cs c w Hg) as He.
  destruct (send_to_unity_end s c w) as [s1 [response|e]]; simpl in He.
  - pose proof (send_json_core s1 websocket response) as Hc.
    destruct (send_json _ _ _) as [s2 [[]|e]]; simpl in Hc.
    + split; [by eapply good_same_core | done].
    + split; [|apply websocket_except_turn].
      eapply good_same_core; [apply websocket_except_core|].
      by eapply good_same_core.
  - split; [|apply websocket_except_turn].
    eapply good_same_core; [apply websocket_except_core | done].
Qed.

Lemma good_route_begin r s n cs now obj params :
  good s n cs → obj ∉ c_obj <$> cs →
  good (route_begin r s now obj params).1 n
       (match (route_begin r s now obj params).2 with
        | inr c => cs ++ [c]
        | inl _ => cs
        end).
Proof.
  intros Hg Hobj. unfold route_begin.
  destruct (send_to_unity_begin _ _ _ _) as [[s1 m'] [c|e]] eqn:Hb; simpl.
  - exact (good_begin _ _ _ _ _ _ _ _ _ Hg Hobj Hb).
  - exact (good_begin _ _ _ _ _ _ _ _ _ Hg Hobj Hb).
Qed.

Lemma good_route_end parse r s n cs c w :
  good s n cs → good (route_end parse r s c w).1 n cs.
Proof.
  intros Hg. unfold route_end.
  pose proof (good_end s n cs c w Hg) as He.
  destruct (send_to_unity_end s c w) as [s1 [response|e]]; simpl in He; [|done].
  by destruct (parse response).
Qed.

Lemma Inv_settle σ ts websocket s1 r :
  good s1 (now σ) (after_turn (t_call <$> ts) r) →
  Inv (settle σ ts websocket (s1, r)).
Proof.
  unfold Inv, settle, calls. intros Hg.
  destruct r as [[|m c]|e]; simpl in *.
  - done.
  - by rewrite fmap_app.
  - by apply good_abort.
Qed.

Section reachable.
Variable parse_response : message → result FunctionResponse.

Lemma Inv_boot : Inv boot.
Proof.
  constructor; simpl; try done; try apply NoDup_nil_2;
    intros c Hc; by apply elem_of_nil in Hc.
Qed.

Lemma Inv_step σ ev σ' : Inv σ → step parse_response σ ev = Some σ' → Inv σ'.
Proof.
  intros HI Hs. destruct ev; simpl in Hs.
  - simplify_eq. by apply consistent_tick.
  - case_decide as Hw; simplify_eq.
    assert (websocket ∉ active_connections (st σ)) by (intros ?; apply Hw; by left).
    unfold Inv, connect; simpl.
    destruct (String.eqb client_type "unity"); simpl;
      apply (consistent_open HI); auto.
  - destruct (sessions σ !! websocket); simplify_eq. by apply good_disconnect.
  - by simplify_eq.
  - case_decide as Ho; [done|].
    pose proof (good_route_begin r _ _ _ (now σ) obj params HI Ho) as Hg.
    destruct (route_begin _ _ _ _ _) as [s1 [out|c]]; simplify_eq; simpl in Hg.
    + done.
    + unfold Inv, calls; simpl. by rewrite fmap_app.
  - destruct (sessions σ !! websocket) as [client_type|]; [|done].
    case_decide as Ho; simplify_eq.
    pose proof (good_websocket_message _ _ _ (now σ) websocket client_type obj m HI Ho) as Hg.
    destruct (websocket_message _ _ _ _ _ _) as [s1 r]. by apply Inv_settle.
  - destruct (tasks σ !! i) as [t|] eqn:Ht; [|done].
    case_decide as Hd; simplify_eq.
    apply good_expire; [done | | done].
    apply list_elem_of_fmap. exists t. split; [done|]. by eapply list_elem_of_lookup_2.
  - destruct (tasks σ !! i) as [t|] eqn:Ht; [|done].
    destruct (wait_for _ _) as [w|]; [|done].
    assert (good (st σ) (now σ) (t_call <$> delete i (tasks σ))) as HI'.
    { rewrite list_fmap_delete. by apply consistent_return. }
    destruct (t_caller t) as [r|websocket m]; simplify_eq.
    + by apply good_route_end.
    + destruct (good_websocket_resume _ _ _ websocket m (t_call t) w HI') as [Hg Ha].
      destruct (websocket_resume _ _ _ _ _) as [s1 r]. apply Inv_settle.
      simpl in *. by rewrite Ha.
Qed.

Lemma Inv_run evs : ∀ σ σ', Inv σ → run parse_response σ evs = Some σ' → Inv σ'.
Proof.
  induction evs as [|ev evs IH]; intros σ σ' HI Hr; simpl in Hr.
  - by simplify_eq.
  - destruct (step parse_response σ ev) as [σ1|] eqn:Hs; [|done].
    eapply IH; [|done]. by eapply Inv_step.
Qed.

Lemma Inv_reachable σ : reachable parse_response σ → Inv σ.
Proof. intros [evs Hr]. eapply Inv_run; [apply Inv_boot | done]. Qed.
End reachable.

(** * What one operation does to the pending map and to the futures *)

Lemma pf_effect_eq s s1 s2 :
  pf_effect s s1 → pending_requests s2 = pending_requests s1 →
  futures s2 = futures s1 → pf_effect s s2.
Proof.
  intros He Hp Hf. destruct He.
  - apply pf_same; congruence.
  - eapply pf_register; [rewrite Hp | rewrite Hf]; done.
  - eapply pf_resolve; [done.. | rewrite Hp | rewrite Hf]; done.
  - eapply pf_forget; [rewrite Hp | rewrite Hf]; done.
  - eapply pf_cancel; [done | rewrite Hp | rewrite Hf]; done.
Qed.

Lemma effect_same_core s s1 s2 : effect s s1 → same_core s1 s2 → effect s s2.
Proof.
  intros (Ha & Hu & He) Hc. pose proof Hc as (Ha' & Hu' & _).
  destruct Hc as (_ & _ & Hp & Hf).
  split_and!; [congruence.. | by eapply pf_effect_eq].
Qed.

Lemma effect_of_same_core s s' : same_core s s' → effect s s'.
Proof. intros (? & ? & ? & ?). split_and!; [done.. | by apply pf_same]. Qed.

Lemma effect_begin s now obj m : effect s (send_to_unity_begin s now obj m).1.1.
Proof.
  unfold send_to_unity_begin, send_json.
  destruct (unity_connection s) as [w|]; simpl.
  - destruct (broken s !! w); simpl; (split_and!; [done.. |]);
      by eapply pf_register.
  - apply effect_of_same_core, same_core_refl.
Qed.

Lemma effect_handle s response : effect s (handle_unity_response s response).
Proof.
  unfold handle_unity_response.
  destruct (m_id response) as [k|]; simpl;
    [|apply effect_of_same_core; by repeat split].
  destruct (pending_requests s !! k) as [f|] eqn:Hk; simpl;
    [|apply effect_of_same_core; by repeat split].
  destruct (futures s !! f) as [[]|] eqn:Hf; simpl; (split_and!; [done.. |]);
    first [by eapply pf_resolve | by eapply pf_forget].
Qed.

Lemma effect_expire s f : effect s (expire s f).
Proof.
  unfold expire.
  destruct (futures s !! f) as [[]|] eqn:Hf; simpl;
    try (apply effect_of_same_core, same_core_refl).
  split_and!; [done.. |]. by eapply pf_cancel.
Qed.

Lemma effect_end s c w : effect s (send_to_unity_end s c w).1.
Proof.
  unfold send_to_unity_end.
  destruct w as [|[]]; simpl; try (apply effect_of_same_core, same_core_refl).
  destruct (pending_requests s !! c_request_id c); simpl;
    [|apply effect_of_same_core, same_core_refl].
  split_and!; [done.. |]. by eapply pf_forget.
Qed.

Lemma effect_websocket_message s now websocket client_type obj m :
  effect s (websocket_message s now websocket client_type obj m).1.
Proof.
  unfold websocket_message, websocket_request.
  destruct (String.eqb client_type "unity"); [apply effect_handle|].
  destruct (falsy (get m "function")).
  - pose proof (send_json_core s websocket (error_reply m "Missing function name")) as Hc.
    destruct (send_json _ _ _) as [s1 [[]|e]]; simpl in Hc.
    + by apply effect_of_same_core.
    + apply effect_of_same_core.
      eapply same_core_trans; [done | apply websocket_except_core].
  - pose proof (effect_begin s now obj m) as Hb.
    destruct (send_to_unity_begin s now obj m) as [[s1 m'] [c|e]]; [done|].
    eapply effect_same_core; [done | apply websocket_except_core].
Qed.

Lemma effect_websocket_resume s websocket m c w :
  effect s (websocket_resume s websocket m c w).1.
Proof.
  unfold websocket_resume. pose proof (effect_end s c w) as He.
  destruct (send_to_unity_end s c w) as [s1 [response|e]]; simpl in He.
  - pose proof (send_json_core s1 websocket response) as Hc.
    destruct (send_json _ _ _) as [s2 [[]|e]]; simpl in Hc.
    + by eapply effect_same_core.
    + eapply effect_same_core; [|apply websocket_except_core].
      by eapply effect_same_core.
  - eapply effect_same_core; [done | apply websocket_except_core].
Qed.

Lemma effect_route_begin r s now obj params :
  effect s (route_begin r s now obj params).1.
Proof.
  unfold route_begin.
  match goal with |- context [send_to_unity_begin s now obj ?m] =>
    pose proof (effect_begin s now obj m) as Hb;
    destruct (send_to_unity_begin s now obj m) as [[s1 m'] [c|e]] end; [done|].
  eapply effect_same_core; [done | by repeat split].
Qed.

Lemma effect_route_end parse r s c w : effect s (route_end parse r s c w).1.
Proof.
  unfold route_end. pose proof (effect_end s c w) as He.
  destruct (send_to_unity_end s c w) as [s1 [response|e]]; simpl in He.
  - destruct (parse response); [done|].
    eapply effect_same_core; [done | by repeat split].
  - eapply effect_same_core; [done | by repeat split].
Qed.

Lemma conn_change_settle σ ts websocket s1 r :
  conn_change s1 σ (settle σ ts websocket (s1, r)).
Proof.
  destruct r as [[|m c]|e]; simpl.
  - apply conn_same; [apply same_core_refl | done].
  - apply conn_same; [apply same_core_refl | done].
  - eapply conn_close; [|done..]. by repeat split.
Qed.

Lemma step_cases parse σ ev σ' :
  step parse σ ev = Some σ' → ∃ s1, effect (st σ) s1 ∧ conn_change s1 σ σ'.
Proof.
  intros Hs. destruct ev; simpl in Hs.
  - simplify_eq. exists (st σ). split; [apply effect_of_same_core|apply conn_same];
      done || apply same_core_refl.
  - case_decide as Hw; simplify_eq. exists (st σ).
    split; [apply effect_of_same_core, same_core_refl |].
    eapply conn_open; [|done..]. intros ?. apply Hw. by left.
  - destruct (sessions σ !! websocket); simplify_eq. exists (st σ).
    split; [apply effect_of_same_core, same_core_refl |].
    eapply conn_close; [apply same_core_refl | done..].
  - simplify_eq. exists (st σ).
    split; [apply effect_of_same_core, same_core_refl |].
    apply conn_same; [by repeat split | done].
  - case_decide; [done|]. exists (route_begin r (st σ) (now σ) obj params).1.
    split; [apply effect_route_begin|].
    destruct (route_begin _ _ _ _ _) as [s1 [out|c]]; simplify_eq;
      (apply conn_same; [apply same_core_refl | done]).
  - destruct (sessions σ !! websocket) as [client_type|]; [|done].
    case_decide; simplify_eq.
    exists (websocket_message (st σ) (now σ) websocket client_type obj m).1.
    split; [apply effect_websocket_message|].
    destruct (websocket_message _ _ _ _ _ _) as [s1 r]. apply conn_change_settle.
  - destruct (tasks σ !! i) as [t|]; [|done]. case_decide; simplify_eq.
    exists (expire (st σ) (c_future (t_call t))).
    split; [apply effect_expire | apply conn_same; [apply same_core_refl | done]].
  - destruct (tasks σ !! i) as [t|]; [|done].
    destruct (wait_for _ _) as [w|]; [|done].
    destruct (t_caller t) as [r|websocket m]; simplify_eq.
    + exists (route_end parse r (st σ) (t_call t) w).1.
      split; [apply effect_route_end | apply conn_same; [apply same_core_refl | done]].
    + exists (websocket_resume (st σ) websocket m (t_call t) w).1.
      split; [apply effect_websocket_resume|].
      destruct (websocket_resume _ _ _ _ _) as [s1 r]. apply conn_change_settle.
Qed.

Lemma step_pf_effect parse σ ev σ' :
  step parse σ ev = Some σ' → pf_effect (st σ) (st σ').
Proof.
  intros (s1 & (_ & _ & He) & Hc)%step_cases. destruct Hc as [Hc _|w ct _ -> _|w s2 Hc -> _].
  - destruct Hc as (_ & _ & ? & ?). by eapply pf_effect_eq.
  - eapply pf_effect_eq; [done | |]; unfold connect; by destruct (String.eqb _ _).
  - destruct Hc as (_ & _ & Hp & Hf).
    eapply pf_effect_eq; [done | rewrite <-Hp | rewrite <-Hf];
      unfold disconnect; destruct (list_remove _ _); try done;
      simpl; by case_decide.
Qed.

Lemma disconnect_unity s websocket w :
  (∀ u, unity_connection s = Some u → u ∈ active_connections s) →
  unity_connection (disconnect s websocket).1 = Some w →
  unity_connection s = Some w ∧ w ≠ websocket.
Proof.
  intros Hact. unfold disconnect.
  destruct (list_remove websocket (active_connections s)) as [l|] eqn:Hl; simpl.
  - case_decide as Hu; simpl; [done|]. intros Hw. split; [done | congruence].
  - intros Hw. split; [done|]. intros ->.
    apply list_remove_None in Hl. by apply Hl, Hact.
Qed.

Section executor_session.
Variable parse_response : message → result FunctionResponse.

Lemma executor_declared_step σ ev σ' :
  Inv σ → executor_declared σ → step parse_response σ ev = Some σ' →
  executor_declared σ'.
Proof.
  intros HI Hd (s1 & (Ha & Hu & _) & Hc)%step_cases w.
  destruct Hc as [Hc ->|w' ct Hw' -> ->|w' s2 Hc -> ->].
  - destruct Hc as (_ & -> & _). rewrite Hu. apply Hd.
  - unfold connect. destruct (String.eqb ct "unity") eqn:Hct; simpl.
    + apply String.eqb_eq in Hct as ->. intros [= <-]. by rewrite lookup_insert_eq.
    + rewrite Hu. intros Hw. rewrite lookup_insert_ne; [by apply Hd|].
      intros <-. apply Hw'. rewrite Ha. by eapply unity_active.
  - destruct Hc as (Ha' & Hu' & _).
    intros [Hw Hne]%disconnect_unity.
    + rewrite lookup_delete_ne by done. apply Hd. congruence.
    + intros x. rewrite Hu', Hu, Ha', Ha. by eapply unity_active.
Qed.

Lemma executor_declared_reachable σ :
  reachable parse_response σ → executor_declared σ.
Proof.
  intros [evs Hr].
  assert (Inv boot ∧ executor_declared boot) as Hb by (split; [apply Inv_boot | done]).
  revert Hb Hr. generalize boot. induction evs as [|ev evs IH]; intros σ0 [HI Hd] Hr.
  - by simplify_eq/=.
  - simpl in Hr. destruct (step parse_response σ0 ev) as [σ1|] eqn:Hs; [|done].
    apply (IH σ1); [|done]. split; [by eapply Inv_step | by eapply executor_declared_step].
Qed.
End executor_session.

Lemma orphan_pf_effect f s s' : orphan f s → pf_effect s s' → orphan f s'.
Proof.
  intros (Hlen & Hno & Hun) He. destruct He as [Hp Hf|k Hp Hf|k f' r Hk Hf' Hp Hf|k Hp Hf|f' Hf' Hp Hf];
    unfold orphan; rewrite Hp, Hf.
  - done.
  - rewrite length_app. split_and!; [simpl; lia | |].
    + intros k'. rewrite lookup_insert. case_decide; [intros [= ?]; lia | apply Hno].
    + intros r. by rewrite lookup_app_l.
  - rewrite length_insert. split_and!; [done | |].
    + intros k'. rewrite lookup_delete. case_decide; [done | apply Hno].
    + intros r'. rewrite list_lookup_insert_ne; [apply Hun|].
      intros <-. by eapply Hno.
  - split_and!; [done | | done].
    intros k'. rewrite lookup_delete. case_decide; [done | apply Hno].
  - rewrite length_insert. split_and!; [done.. |].
    intros r. destruct (decide (f' = f)) as [->|Hne].
    + by rewrite list_lookup_insert_eq.
    + rewrite list_lookup_insert_ne by done. apply Hun.
Qed.

Lemma orphan_run parse f evs : ∀ σ σ',
  orphan f (st σ) → run parse σ evs = Some σ' → orphan f (st σ').
Proof.
  induction evs as [|ev evs IH]; intros σ σ' Ho Hr; simpl in Hr.
  - by simplify_eq.
  - destruct (step parse σ ev) as [σ1|] eqn:Hs; [|done].
    eapply IH; [|done]. eapply orphan_pf_effect; [done | by eapply step_pf_effect].
Qed.

(** * Resolution of a request by its response *)

Lemma handle_unity_response_match s k f response :
  pending_requests s !! k = Some f → futures s !! f = Some FPending →
  m_id response = Some k →
  handle_unity_response s response
  = set_futures (λ l, <[f := FResult response]> l) (set_pending (λ p, delete k p) s).
Proof.
  intros Hk Hf Hid. unfold handle_unity_response. rewrite Hid. simpl.
  rewrite Hk. simpl. by rewrite Hf.
Qed.

Lemma handle_unity_response_unknown s response :
  (∀ k, m_id response = Some k → pending_requests s !! k = None) →
  handle_unity_response s response = unknown_request s (m_id response).
Proof.
  intros Hk. unfold handle_unity_response.
  destruct (m_id response) as [k|]; [|done]. by rewrite (Hk k).
Qed.

(** Before its deadline, the future of a suspended call that still has its
    entry is neither resolved nor cancelled. *)
Lemma waiting_future_pending σ c :
  Inv σ → c ∈ calls σ →
  pending_requests (st σ) !! c_request_id c = Some (c_future c) →
  now σ < c_deadline c →
  futures (st σ) !! c_future c = Some FPending.
Proof.
  intros HI Hc Hk Hd.
  destruct (lookup_lt_is_Some_2 _ _ (calls_bound _ _ _ _ _ _ HI c Hc)) as [x Hx].
  destruct x as [|r|]; [done | |].
  - by destruct (pending_unresolved _ _ _ _ _ _ HI _ _ r Hk).
  - pose proof (cancelled_late _ _ _ _ _ _ HI c Hc Hx). lia.
Qed.

(** C1: a response whose id is that of a pending request, delivered to
    [handle_unity_response] before the deadline, resolves the waiter of the
    request with exactly that response and removes the identifier from the
    pending map in that step; a second response with the same id changes
    nothing but the log, which gets the "unknown request ID" warning. *)
Theorem matching_response_resolves_request parse σ c response :
  reachable parse σ →
  c ∈ calls σ →
  pending_requests (st σ) !! c_request_id c = Some (c_future c) →
  now σ < c_deadline c →
  m_id response = Some (c_request_id c) →
  let s1 := handle_unity_response (st σ) response in
  s1 = set_futures (λ l, <[c_future c := FResult response]> l)
         (set_pending (λ p, delete (c_request_id c) p) (st σ))
  ∧ wait_for s1 (c_future c) = Some (Return response)
  ∧ send_to_unity_end s1 c (Return response) = (s1, Return response)
  ∧ pending_requests s1 !! c_request_id c = None
  ∧ ∀ response', m_id response' = Some (c_request_id c) →
      handle_unity_response s1 response'
      = add_log (LogWarning ("Received response for unknown request ID: "
                             +:+ c_request_id c)) s1.
Proof.
  intros HI%Inv_reachable Hc Hk Hd Hid s1.
  pose proof (waiting_future_pending σ c HI Hc Hk Hd) as Hf.
  assert (s1 = set_futures (λ l, <[c_future c := FResult response]> l)
                 (set_pending (λ p, delete (c_request_id c) p) (st σ))) as Hs1
    by by apply handle_unity_response_match.
  assert (pending_requests s1 !! c_request_id c = None) as Hgone
    by (rewrite Hs1; simpl; apply lookup_delete_eq).
  split_and!; [done | | done | done |].
  - unfold wait_for. rewrite Hs1. simpl.
    rewrite list_lookup_insert_eq; [done|]. by eapply lookup_lt_Some.
  - intros response' Hid'. rewrite handle_unity_response_unknown.
    + by rewrite Hid'.
    + intros k. rewrite Hid'. by intros [= <-].
Qed.

Lemma matching_response_resolves_request_witness :
  wait_for (handle_unity_response (st (after one_request)) (pong "r1")) 0
  = Some (Return (pong "r1")).
Proof.
  apply (matching_response_resolves_request parse_wire (after one_request)
           call_r1 (pong "r1")).
  - exists one_request. vm_compute. reflexivity.
  - vm_compute. left.
  - vm_compute. reflexivity.
  - vm_compute. lia.
  - reflexivity.
Defined.

Lemma handle_unity_response_others s response f :
  (∀ k, m_id response = Some k → pending_requests s !! k ≠ Some f) →
  futures (handle_unity_response s response) !! f = futures s !! f.
Proof.
  unfold handle_unity_response. intros Hno.
  destruct (m_id response) as [k|]; simpl; [|done].
  destruct (pending_requests s !! k) as [f'|] eqn:Hk; simpl; [|done].
  destruct (futures s !! f') as [[]|]; simpl; try done.
  rewrite list_lookup_insert_ne; [done|]. intros ->. by eapply Hno.
Qed.

(** C5: with two requests pending under distinct identifiers [r1] and [r2],
    a response carrying [r2] resolves the waiter of [r2] and no other, and
    leaves the waiter of [r1] and its entry as they are; the waiter of [r1]
    changes only on a response carrying [r1]. *)
Theorem response_resolves_only_its_request parse σ r1 r2 f1 f2 response :
  reachable parse σ →
  pending_requests (st σ) !! r1 = Some f1 →
  pending_requests (st σ) !! r2 = Some f2 →
  r1 ≠ r2 →
  m_id response = Some r2 →
  let s' := handle_unity_response (st σ) response in
  pending_requests s' !! r1 = Some f1
  ∧ futures s' !! f1 = futures (st σ) !! f1
  ∧ pending_requests s' !! r2 = None
  ∧ (futures (st σ) !! f2 = Some FPending → futures s' !! f2 = Some (FResult response))
  ∧ (∀ f, f ≠ f2 → futures s' !! f = futures (st σ) !! f)
  ∧ (∀ response',
       m_id response' ≠ Some r1 →
       futures (handle_unity_response (st σ) response') !! f1 = futures (st σ) !! f1).
Proof.
  intros HI%Inv_reachable H1 H2 Hne Hid s'.
  assert (∀ f, f ≠ f2 → futures s' !! f = futures (st σ) !! f) as Hothers.
  { intros f Hff. apply handle_unity_response_others.
    intros k Hk. rewrite Hid in Hk. simplify_eq. congruence. }
  assert (f1 ≠ f2) as Hf.
  { intros ->. apply Hne. by eapply (pending_inj _ _ _ _ _ _ HI). }
  split_and!; [| by apply Hothers | | | done |].
  - subst s'. unfold handle_unity_response. rewrite Hid. simpl. rewrite H2. simpl.
    destruct (futures (st σ) !! f2) as [[]|]; simpl; by rewrite lookup_delete_ne.
  - subst s'. unfold handle_unity_response. rewrite Hid. simpl. rewrite H2. simpl.
    destruct (futures (st σ) !! f2) as [[]|]; simpl; by rewrite lookup_delete_eq.
  - intros Hp. subst s'. rewrite (handle_unity_response_match _ r2 f2) by done.
    simpl. rewrite list_lookup_insert_eq; [done|]. by eapply lookup_lt_Some.
  - intros response' Hid'. apply handle_unity_response_others.
    intros k Hk Hkf. apply Hid'. rewrite Hk. f_equal.
    by eapply (pending_inj _ _ _ _ _ _ HI).
Qed.

Lemma response_resolves_only_its_request_witness :
  futures (handle_unity_response (st (after two_requests)) (pong "r2")) !! 0
  = futures (st (after two_requests)) !! 0.
Proof.
  refine (proj1 (proj2 (response_resolves_only_its_request parse_wire
            (after two_requests) "r1" "r2" 0 1 (pong "r2") _ _ _ _ _))).
  - exists two_requests. vm_compute. reflexivity.
  - vm_compute. reflexivity.
  - vm_compute. reflexivity.
  - discriminate.
  - reflexivity.
Defined.

(** * Submission without an executor *)

(** C3: while no executor is registered, [send_to_unity] raises "No Unity
    connection available" at once: no call is suspended, and the state is
    the one before, so no frame was written and the pending map has no new
    entry. *)
Theorem send_without_executor_fails s now obj m :
  unity_connection s = None →
  send_to_unity_begin s now obj m
  = (s, m, Raise (Exception "No Unity connection available")).
Proof. intros Hu. unfold send_to_unity_begin. by rewrite Hu. Qed.

Lemma send_without_executor_fails_witness :
  send_to_unity_begin init 0 100%N (ping (Some "r1"))
  = (init, ping (Some "r1"), Raise (Exception "No Unity connection available")).
Proof. apply (send_without_executor_fails init 0 100%N (ping (Some "r1"))). reflexivity. Defined.

(** * Requests without a function name *)

(** C6: a message without function name from a client gets the reply
    [success] false, [error] "Missing function name" with the id of the
    message, on the connection it came from, which is not the executor; the
    state is otherwise the one before, so [send_to_unity] did not run and
    nothing went to the executor.  "Without function name" is the test of
    the code: no ["function"] key, or a value Python counts as false. *)
Theorem missing_function_name_rejected parse σ websocket client_type obj m :
  reachable parse σ →
  sessions σ !! websocket = Some client_type →
  client_type ≠ "unity" →
  falsy (get m "function") = true →
  broken (st σ) !! websocket = None →
  let reply := error_reply m "Missing function name" in
  websocket_message (st σ) (now σ) websocket client_type obj m
  = (set_sent (λ l, l ++ [(websocket, reply)]) (st σ), Return Continue)
  ∧ m_id reply = m_id m
  ∧ get reply "success" = Some (JBool false)
  ∧ get reply "error" = Some (JStr "Missing function name")
  ∧ unity_connection (st σ) ≠ Some websocket.
Proof.
  intros Hr Hs Hct Hfn Hb reply. split_and!; [| done.. |].
  - unfold websocket_message, websocket_request, send_json.
    apply String.eqb_neq in Hct. by rewrite Hct, Hfn, Hb.
  - intros Hu%(executor_declared_reachable parse σ Hr). congruence.
Qed.

Lemma missing_function_name_rejected_witness :
  websocket_message (st (after one_request)) (now (after one_request)) 1
    "mcp_client" 101%N (Message (Some "r9") ∅)
  = (set_sent (λ l, l ++ [(1, error_reply (Message (Some "r9") ∅)
                                "Missing function name")])
       (st (after one_request)), Return Continue).
Proof.
  refine (proj1 (missing_function_name_rejected parse_wire (after one_request)
            1 "mcp_client" 101%N (Message (Some "r9") ∅) _ _ _ _ _)).
  - exists one_request. vm_compute. reflexivity.
  - vm_compute. reflexivity.
  - discriminate.
  - reflexivity.
  - vm_compute. reflexivity.
Defined.

(** * Disconnection *)

(** C8: [disconnect(c)] leaves [c] out of the active connections and keeps
    the others, clears the executor slot exactly when [c] was the executor,
    and touches neither the pending map nor the futures; in the loop the
    suspended calls stay suspended. *)
Theorem disconnect_keeps_pending parse σ c :
  reachable parse σ →
  let s := st σ in
  let s' := (disconnect s c).1 in
  (c ∉ active_connections s')
  ∧ (∀ w, w ≠ c → (w ∈ active_connections s' ↔ w ∈ active_connections s))
  ∧ (unity_connection s = Some c → unity_connection s' = None)
  ∧ (unity_connection s ≠ Some c → unity_connection s' = unity_connection s)
  ∧ pending_requests s' = pending_requests s
  ∧ futures s' = futures s
  ∧ (∀ σ', step parse σ (EvClose c) = Some σ' → st σ' = s' ∧ tasks σ' = tasks σ).
Proof.
  intros HI%Inv_reachable s s'.
  assert (∀ σ', step parse σ (EvClose c) = Some σ' → st σ' = s' ∧ tasks σ' = tasks σ)
    as Hstep.
  { intros σ' Hs. simpl in Hs. destruct (sessions σ !! c); by simplify_eq. }
  revert Hstep. generalize (step parse σ (EvClose c)). intros o Hstep.
  subst s s'. unfold disconnect in *.
  destruct (list_remove c (active_connections (st σ))) as [l|] eqn:Hl.
  - apply list_remove_Some in Hl as (Hin & Hsub & Hnot & Hrest).
    assert (c ∉ l) by (apply Hnot; by eapply active_nodup).
    assert (∀ w, w ≠ c → (w ∈ l ↔ w ∈ active_connections (st σ))).
    { intros w Hw. split; [intros ?; by eapply elem_of_sublist | by apply Hrest]. }
    case_decide as Hu; simpl in *; split_and!; done.
  - apply list_remove_None in Hl. simpl in *. split_and!; try done.
    intros Hu. destruct Hl. by eapply unity_active.
Qed.

Lemma disconnect_keeps_pending_witness :
  pending_requests (disconnect (st (after one_request)) 0).1
  = pending_requests (st (after one_request)).
Proof.
  refine (proj1 (proj2 (proj2 (proj2 (proj2
            (disconnect_keeps_pending parse_wire (after one_request) 0 _)))))).
  exists one_request. vm_compute. reflexivity.
Defined.

(** * Routing of inbound messages *)

(** C7, as stated, fails: the connection [0] is not the executor any more
    ([1] is), and a message from it is still passed to
    [handle_unity_response], where it resolves the request of the client;
    it is not taken as a request. *)
Lemma superseded_executor_still_resolves :
  let σ := after superseded in
  run parse_wire boot superseded = Some σ
  ∧ sessions σ !! 0 = Some "unity"
  ∧ unity_connection (st σ) = Some 1
  ∧ websocket_message (st σ) (now σ) 0 "unity" 101%N (pong "r1")
    = (handle_unity_response (st σ) (pong "r1"), Return Continue)
  ∧ futures (st σ) !! 0 = Some FPending
  ∧ futures (handle_unity_response (st σ) (pong "r1")) !! 0 = Some (FResult (pong "r1"))
  ∧ sent (handle_unity_response (st σ) (pong "r1")) = sent (st σ)
  ∧ sent (websocket_request (st σ) (now σ) 0 101%N (pong "r1")).1 ≠ sent (st σ).
Proof.
  vm_compute. split_and!; try reflexivity. discriminate.
Qed.

(** C7, amended: a message is passed to [handle_unity_response] exactly
    when its connection declared the client type "unity" in its first
    frame, and is taken as a request otherwise; the connection in the
    executor slot is one of those that declared "unity". *)
Theorem routing_follows_declared_type parse σ websocket client_type obj m :
  reachable parse σ →
  sessions σ !! websocket = Some client_type →
  (client_type = "unity" →
     websocket_message (st σ) (now σ) websocket client_type obj m
     = (handle_unity_response (st σ) m, Return Continue))
  ∧ (client_type ≠ "unity" →
     websocket_message (st σ) (now σ) websocket client_type obj m
     = websocket_request (st σ) (now σ) websocket obj m)
  ∧ (unity_connection (st σ) = Some websocket → client_type = "unity").
Proof.
  intros Hr Hs. unfold websocket_message. split_and!.
  - by intros ->.
  - intros Hct%String.eqb_neq. by rewrite Hct.
  - intros Hu%(executor_declared_reachable parse σ Hr). congruence.
Qed.

Lemma routing_follows_declared_type_witness :
  websocket_message (st (after superseded)) (now (after superseded)) 0 "unity"
    101%N (pong "r1")
  = (handle_unity_response (st (after superseded)) (pong "r1"), Return Continue).
Proof.
  refine (proj1 (routing_follows_declared_type parse_wire (after superseded)
            0 "unity" 101%N (pong "r1") _ _) eq_refl).
  - exists superseded. vm_compute. reflexivity.
  - vm_compute. reflexivity.
Defined.

(** * Outcomes seen by the callers *)

(** C9, as stated, fails on the websocket: the frame the client receives
    for its request is the frame of the executor, here one without
    [success]. *)
Lemma relayed_frame_without_success_flag :
  let σ := after bare_answer in
  run parse_wire boot bare_answer = Some σ
  ∧ last (sent (st σ)) = Some (1, bare_reply)
  ∧ get bare_reply "success" = None.
Proof. vm_compute. split_and!; reflexivity. Qed.

Lemma send_to_unity_begin_broken s now obj m :
  broken (send_to_unity_begin s now obj m).1.1 = broken s.
Proof.
  unfold send_to_unity_begin, send_json.
  destruct (unity_connection s) as [w|]; [|done]. simpl.
  by destruct (broken s !! w).
Qed.

Lemma send_to_unity_end_broken s c w :
  broken (send_to_unity_end s c w).1 = broken s.
Proof.
  unfold send_to_unity_end. destruct w as [|[]]; try done.
  by destruct (pending_requests s !! c_request_id c).
Qed.

Lemma websocket_except_reply s websocket m e :
  broken s !! websocket = None →
  websocket_except s websocket m e
  = (set_sent (λ l, l ++ [(websocket, error_reply m (str e))])
       (add_log (LogError ("Error handling client request: " +:+ str e)) s),
     Return Continue).
Proof. intros Hb. unfold websocket_except, send_json. simpl. by rewrite Hb. Qed.

Lemma route_begin_outcome r s now obj params s1 out :
  route_begin r s now obj params = (s1, inl out) →
  ∃ e, (send_to_unity_begin s now obj (route_message r params)).2 = Raise e
       ∧ out = Return (failure e).
Proof.
  unfold route_begin.
  destruct (send_to_unity_begin _ _ _ _) as [[s0 m'] [c|e]]; [done|].
  intros [= _ <-]. by exists e.
Qed.

Lemma route_end_outcome parse r s c w :
  ∃ out, (route_end parse r s c w).2 = Return out
    ∧ (∀ e, (send_to_unity_end s c w).2 = Raise e → out = failure e)
    ∧ (∀ response, (send_to_unity_end s c w).2 = Return response →
         parse response = Return out
         ∨ ∃ e, parse response = Raise e ∧ out = failure e).
Proof.
  unfold route_end. destruct (send_to_unity_end s c w) as [s1 [response|e]]; simpl.
  - destruct (parse response) as [out|e] eqn:Hp; simpl.
    + exists out. split_and!; [done.. |]. intros ? [= <-]. by left.
    + exists (failure e). split_and!; [done.. |]. intros ? [= <-]. right. by exists e.
  - exists (failure e). split_and!; [done | by intros ? [= <-] | done].
Qed.

(** C9, amended: a route never raises and returns a [FunctionResponse], so
    with a [success] flag; what [send_to_unity] or the validation of the
    response raises becomes [success] false with the text of the error.  On
    a websocket whose connection can be written to, what [send_to_unity]
    raises is answered with the id, [success] false and the text of the
    error; a response of the executor is passed on as it is. *)
Theorem failures_become_outcomes parse r s now obj params websocket m c w :
  broken s !! websocket = None →
  (∀ s1 out, route_begin r s now obj params = (s1, inl out) →
     ∃ e, (send_to_unity_begin s now obj (route_message r params)).2 = Raise e
          ∧ out = Return (failure e))
  ∧ (∃ out, (route_end parse r s c w).2 = Return out
       ∧ (∀ e, (send_to_unity_end s c w).2 = Raise e → out = failure e)
       ∧ (∀ response, (send_to_unity_end s c w).2 = Return response →
            parse response = Return out
            ∨ ∃ e, parse response = Raise e ∧ out = failure e))
  ∧ (∀ e, success (failure e) = false ∧ error (failure e) = Some (str e))
  ∧ (∀ s1 m' e,
       falsy (get m "function") = false →
       send_to_unity_begin s now obj m = (s1, m', Raise e) →
       websocket_request s now websocket obj m
       = (set_sent (λ l, l ++ [(websocket, error_reply m' (str e))])
            (add_log (LogError ("Error handling client request: " +:+ str e)) s1),
          Return Continue))
  ∧ (∀ s1 e,
       send_to_unity_end s c w = (s1, Raise e) →
       websocket_resume s websocket m c w
       = (set_sent (λ l, l ++ [(websocket, error_reply m (str e))])
            (add_log (LogError ("Error handling client request: " +:+ str e)) s1),
          Return Continue))
  ∧ (∀ s1 response,
       send_to_unity_end s c w = (s1, Return response) →
       websocket_resume s websocket m c w
       = (set_sent (λ l, l ++ [(websocket, response)]) s1, Return Continue))
  ∧ (∀ text, m_id (error_reply m text) = m_id m
       ∧ get (error_reply m text) "success" = Some (JBool false)
       ∧ get (error_reply m text) "error" = Some (JStr text)).
Proof.
  intros Hb. split_and!.
  - apply route_begin_outcome.
  - apply route_end_outcome.
  - done.
  - intros s1 m' e Hfn Hbegin. unfold websocket_request. rewrite Hfn, Hbegin.
    apply websocket_except_reply.
    pose proof (send_to_unity_begin_broken s now obj m) as Hbr.
    rewrite Hbegin in Hbr. simpl in Hbr. by rewrite Hbr.
  - intros s1 e Hend. unfold websocket_resume. rewrite Hend.
    apply websocket_except_reply.
    pose proof (send_to_unity_end_broken s c w) as Hbr.
    rewrite Hend in Hbr. simpl in Hbr. by rewrite Hbr.
  - intros s1 response Hend. unfold websocket_resume. rewrite Hend.
    unfold send_json.
    pose proof (send_to_unity_end_broken s c w) as Hbr.
    rewrite Hend in Hbr. simpl in Hbr. by rewrite Hbr, Hb.
  - done.
Qed.

Lemma failures_become_outcomes_witness :
  websocket_request init 0 1 100%N (ping (Some "r1"))
  = (set_sent (λ l, l ++ [(1, error_reply (ping (Some "r1"))
                                "No Unity connection available")])
       (add_log (LogError "Error handling client request: No Unity connection available")
          init),
     Return Continue).
Proof.
  refine (proj1 (proj2 (proj2 (proj2
    (failures_become_outcomes parse_wire ManageScene init 0 100%N JNull 1
       (ping (Some "r1")) call_r1 (Raise TimeoutError) _))))
    init (ping (Some "r1")) (Exception "No Unity connection available") _ _);
    reflexivity.
Defined.

(** * Timeouts *)

Lemma send_to_unity_end_timeout_present s c f :
  pending_requests s !! c_request_id c = Some f →
  send_to_unity_end s c (Raise TimeoutError)
  = (set_pending (λ p, delete (c_request_id c) p) s,
     Raise (Exception "Request to Unity timed out")).
Proof. intros Hk. unfold send_to_unity_end. by rewrite Hk. Qed.

Lemma send_to_unity_end_timeout_absent s c :
  pending_requests s !! c_request_id c = None →
  send_to_unity_end s c (Raise TimeoutError) = (s, Raise (KeyError (c_request_id c))).
Proof. intros Hk. unfold send_to_unity_end. by rewrite Hk. Qed.

Lemma send_to_unity_end_timeout_forgets s c :
  pending_requests (send_to_unity_end s c (Raise TimeoutError)).1 !! c_request_id c = None.
Proof.
  unfold send_to_unity_end.
  destruct (pending_requests s !! c_request_id c) eqn:Hk; simpl; [|done].
  apply lookup_delete_eq.
Qed.

(** C2 at [reused_id]: the second call got no response and its deadline
    has passed, and its [del] finds the key gone, taken by the timeout of
    the first call: it raises [KeyError], and its client is told ['r1']
    instead of "Request to Unity timed out". *)
Theorem timeout_after_reused_id_raises_KeyError :
  let σ := after reused_id in
  run parse_wire boot reused_id = Some σ
  ∧ tasks σ = [Task (WsCaller 2 (ping (Some "r1"))) second_call]
  ∧ c_deadline second_call ≤ now σ
  ∧ wait_for (st σ) (c_future second_call) = Some (Raise TimeoutError)
  ∧ send_to_unity_end (st σ) second_call (Raise TimeoutError)
    = (st σ, Raise (KeyError "r1"))
  ∧ (∃ σ', step parse_wire σ (EvResume 0) = Some σ'
       ∧ last (sent (st σ')) = Some (2, error_reply (ping (Some "r1")) "'r1'")).
Proof.
  split_and!.
  - vm_compute. reflexivity.
  - vm_compute. reflexivity.
  - vm_compute. reflexivity.
  - vm_compute. reflexivity.
  - vm_compute. reflexivity.
  - eexists. split; vm_compute; reflexivity.
Qed.

(** The same [KeyError] with a single request: the response that comes
    between the timer and the resumption of the call takes the key, and
    leaves the cancelled future as it is. *)
Lemma response_after_timer_raises_KeyError :
  let σ := after late_response in
  run parse_wire boot late_response = Some σ
  ∧ calls σ = [call_r1]
  ∧ wait_for (st σ) (c_future call_r1) = Some (Raise TimeoutError)
  ∧ send_to_unity_end (st σ) call_r1 (Raise TimeoutError)
    = (st σ, Raise (KeyError "r1")).
Proof. split_and!; vm_compute; reflexivity. Qed.

(** * Generated identifiers *)

(** C4: the calls suspended at one time whose identifier was generated
    have pairwise distinct identifiers, and an identifier generated for a
    new message is that of no such call. *)
Theorem generated_ids_pairwise_distinct parse σ i j c1 c2 :
  reachable parse σ →
  calls σ !! i = Some c1 →
  calls σ !! j = Some c2 →
  i ≠ j →
  c_generated c1 = true →
  c_generated c2 = true →
  c_request_id c1 ≠ c_request_id c2
  ∧ (∀ obj m, m_id m = None → obj ∉ c_obj <$> calls σ →
       request_id_of obj m ≠ c_request_id c1).
Proof.
  intros HI%Inv_reachable H1 H2 Hij Hg1 Hg2.
  pose proof (list_elem_of_lookup_2 _ _ _ H1) as Hc1.
  pose proof (list_elem_of_lookup_2 _ _ _ H2) as Hc2.
  rewrite (calls_generated _ _ _ _ _ _ HI c1 Hc1 Hg1).
  rewrite (calls_generated _ _ _ _ _ _ HI c2 Hc2 Hg2).
  split.
  - intros Heq%(inj pretty). apply Hij.
    eapply NoDup_lookup; [exact (calls_obj_nodup _ _ _ _ _ _ HI) | |];
      rewrite list_lookup_fmap.
    + by rewrite H1.
    + by rewrite H2, Heq.
  - intros obj m Hm Hobj. unfold request_id_of. rewrite Hm. simpl.
    intros ->%(inj pretty). apply Hobj. apply list_elem_of_fmap. by exists c1.
Qed.

Lemma generated_ids_pairwise_distinct_witness :
  c_request_id (Call 100%N true "100" 0 30) ≠ c_request_id (Call 200%N true "200" 1 30).
Proof.
  refine (proj1 (generated_ids_pairwise_distinct parse_wire (after two_routes) 0 1
            (Call 100%N true "100" 0 30) (Call 200%N true "200" 1 30) _ _ _ _ _ _)).
  - exists two_routes. vm_compute. reflexivity.
  - vm_compute. reflexivity.
  - vm_compute. reflexivity.
  - lia.
  - reflexivity.
  - reflexivity.
Defined.

(** * A caller-supplied id that is already pending *)

Lemma websocket_request_registers s now websocket obj m :
  is_Some (unity_connection s) →
  falsy (get m "function") = false →
  let out := websocket_request s now websocket obj m in
  let k := request_id_of obj m in
  let c := Call obj (bool_decide (m_id m = None)) k (length (futures s)) (now + timeout) in
  pending_requests out.1 = <[k := length (futures s)]> (pending_requests s)
  ∧ futures out.1 = futures s ++ [FPending]
  ∧ after_turn [] out.2 ⊆ [c]
  ∧ (∀ w, unity_connection s = Some w → broken s !! w = None →
       out.2 = Return (Awaiting (Message (Some k) (m_fields m)) c)).
Proof.
  intros [w Hu] Hfn. unfold websocket_request. rewrite Hfn.
  unfold send_to_unity_begin, send_json. rewrite Hu. simpl.
  destruct (broken s !! w) as [text|] eqn:Hb; simpl.
  - match goal with |- context [websocket_except ?s1 websocket ?m1 ?e] =>
      pose proof (websocket_except_core s1 websocket m1 e) as (_ & _ & Hp & Hf);
      pose proof (websocket_except_turn s1 websocket m1 e []) as Ht end.
    rewrite Hp, Hf, Ht. simpl. split_and!; [done.. | set_solver |].
    intros w' [= <-] Hb'. congruence.
  - split_and!; [done.. | set_solver |]. done.
Qed.

Lemma settle_pending_futures σ ts websocket s1 r :
  pending_requests (st (settle σ ts websocket (s1, r))) = pending_requests s1
  ∧ futures (st (settle σ ts websocket (s1, r))) = futures s1.
Proof.
  destruct r as [[|m c]|e]; simpl; [done.. |].
  unfold websocket_abort, disconnect. simpl.
  destruct (list_remove _ _); [|done]. simpl. by case_decide.
Qed.

Lemma wait_for_unresolved s (f : Future) :
  (∀ r, futures s !! f ≠ Some (FResult r)) →
  wait_for s f = None ∨ wait_for s f = Some (Raise TimeoutError).
Proof.
  unfold wait_for. intros Hun.
  destruct (futures s !! f) as [[|r|]|]; auto. by destruct (Hun r).
Qed.

(** C10: when a client submits, with an executor registered, a request
    under an id that is pending, the pending map then has the future of the
    new call under that id; from then on no run of the loop resolves the
    earlier future with a response, and whoever waits on it is resumed by
    the timeout only.  Nothing refuses the second request. *)
Theorem resubmitted_id_replaces_entry parse σ websocket client_type obj m k
    (f_old : Future) σ1 :
  reachable parse σ →
  is_Some (unity_connection (st σ)) →
  sessions σ !! websocket = Some client_type →
  client_type ≠ "unity" →
  falsy (get m "function") = false →
  m_id m = Some k →
  pending_requests (st σ) !! k = Some f_old →
  step parse σ (EvReceive websocket obj m) = Some σ1 →
  let f_new := length (futures (st σ)) in
  let c_new := Call obj false k f_new (now σ + timeout) in
  pending_requests (st σ1) !! k = Some f_new
  ∧ f_new ≠ f_old
  ∧ futures (st σ1) !! f_new = Some FPending
  ∧ (calls σ1 = calls σ ∨ calls σ1 = calls σ ++ [c_new])
  ∧ (∀ w, unity_connection (st σ) = Some w → broken (st σ) !! w = None →
       calls σ1 = calls σ ++ [c_new])
  ∧ (∀ evs σ2, run parse σ1 evs = Some σ2 →
       (∀ r, futures (st σ2) !! f_old ≠ Some (FResult r))
       ∧ (wait_for (st σ2) f_old = None
          ∨ wait_for (st σ2) f_old = Some (Raise TimeoutError))).
Proof.
  intros HI%Inv_reachable Hu Hs Hct Hfn Hid Hk Hstep f_new c_new.
  simpl in Hstep. rewrite Hs in Hstep. case_decide as Hobj; [done|].
  injection Hstep as <-. unfold websocket_message.
  apply String.eqb_neq in Hct. rewrite Hct.
  destruct (websocket_request_registers (st σ) (now σ) websocket obj m Hu Hfn)
    as (Hp & Hf & Hsub & Hok).
  unfold request_id_of in *. rewrite Hid in *.
  destruct (websocket_request (st σ) (now σ) websocket obj m) as [s1 r] eqn:Hreq.
  destruct (settle_pending_futures σ (tasks σ) websocket s1 r) as [Hp' Hf'].
  simpl in Hp, Hf, Hsub, Hok.
  assert (f_old < f_new) as Hlt by by eapply pending_bound.
  assert (calls (settle σ (tasks σ) websocket (s1, r)) = calls σ ++ after_turn [] r)
    as Hcalls.
  { unfold calls. destruct r as [[|m' c]|e]; simpl; rewrite ?fmap_app, ?app_nil_r; done. }
  split_and!.
  - rewrite Hp', Hp. apply lookup_insert_eq.
  - lia.
  - rewrite Hf', Hf. apply list_lookup_middle. done.
  - rewrite Hcalls. destruct r as [[|m' c]|e]; simpl in *;
      rewrite ?app_nil_r; auto.
    right. f_equal. assert (c ∈ [c_new]) as ->%list_elem_of_singleton by set_solver.
    done.
  - intros w Hw Hb. rewrite Hcalls, (Hok w Hw Hb). done.
  - intros evs σ2 Hrun.
    assert (orphan f_old (st (settle σ (tasks σ) websocket (s1, r)))) as Ho.
    { unfold orphan. rewrite Hp', Hf', Hp, Hf, length_app. split_and!.
      - simpl. lia.
      - intros k'. rewrite lookup_insert. case_decide; [intros [= ?]; lia|].
        intros Hk'. by pose proof (pending_inj _ _ _ _ _ _ HI _ _ _ Hk Hk').
      - intros r'. rewrite lookup_app_l by done.
        by eapply pending_unresolved. }
    destruct (orphan_run parse f_old evs _ σ2 Ho Hrun) as (_ & _ & Hun).
    split; [done | by apply wait_for_unresolved].
Qed.

Lemma resubmitted_id_replaces_entry_witness :
  pending_requests
    (st (after (one_request ++ [EvOpen 2 "mcp_client"; EvReceive 2 200%N resubmission])))
  !! "r1" = Some 1.
Proof.
  refine (proj1 (resubmitted_id_replaces_entry parse_wire
            (after (one_request ++ [EvOpen 2 "mcp_client"])) 2 "mcp_client" 200%N
            resubmission "r1" 0 _ _ _ _ _ _ _ _ _)).
  - exists (one_request ++ [EvOpen 2 "mcp_client"]). vm_compute. reflexivity.
  - vm_compute. eexists. reflexivity.
  - vm_compute. reflexivity.
  - discriminate.
  - reflexivity.
  - reflexivity.
  - vm_compute. reflexivity.
  - vm_compute. reflexivity.
Defined.

(** * Further properties of the manager *)

(** X1: in every state of the loop the active connections are pairwise
    distinct, and the connection in the executor slot is one of them and
    was declared as "unity". *)
Theorem executor_slot_is_active parse σ :
  reachable parse σ →
  NoDup (active_connections (st σ))
  ∧ (∀ w, unity_connection (st σ) = Some w →
       w ∈ active_connections (st σ) ∧ sessions σ !! w = Some "unity").
Proof.
  intros Hr. pose proof (Inv_reachable parse σ Hr) as HI.
  split; [by eapply active_nodup|].
  intros w Hw. split; [by eapply unity_active|].
  by apply (executor_declared_reachable parse σ Hr).
Qed.

Lemma executor_slot_is_active_witness :
  NoDup (active_connections (st (after one_request))).
Proof.
  refine (proj1 (executor_slot_is_active parse_wire (after one_request) _)).
  exists one_request. vm_compute. reflexivity.
Defined.

Lemma pf_effect_keeps_done s s' (f : Future) x :
  futures s !! f = Some x → x ≠ FPending → pf_effect s s' →
  futures s' !! f = Some x.
Proof.
  intros Hf Hx He.
  destruct He as [_ Hfs|k _ Hfs|k f' r _ Hf' _ Hfs|k _ Hfs|f' Hf' _ Hfs]; rewrite Hfs.
  - done.
  - rewrite lookup_app_l; [done|]. by eapply lookup_lt_Some.
  - rewrite list_lookup_insert_ne; [done|]. intros ->.
    pose proof (eq_trans (eq_sym Hf) Hf') as [= ->]. done.
  - done.
  - rewrite list_lookup_insert_ne; [done|]. intros ->.
    pose proof (eq_trans (eq_sym Hf) Hf') as [= ->]. done.
Qed.

(** X2: a future that is done stays as it is through every run of the
    loop: a result is never replaced by another response or by a timeout,
    and a future cancelled by its timer is never given a response. *)
Theorem done_future_is_final parse σ evs σ' (f : Future) x :
  futures (st σ) !! f = Some x →
  done x = true →
  run parse σ evs = Some σ' →
  futures (st σ') !! f = Some x.
Proof.
  revert σ. induction evs as [|ev evs IH]; intros σ Hf Hx Hr; simpl in Hr.
  - by simplify_eq.
  - destruct (step parse σ ev) as [σ1|] eqn:Hs; [|done].
    eapply IH; [|done..]. eapply pf_effect_keeps_done; [done | | by eapply step_pf_effect].
    by intros ->.
Qed.

Lemma done_future_is_final_witness :
  futures (st (after (one_request ++ [EvReceive 0 101%N (pong "r1");
                                      EvReceive 0 102%N (pong "r1")]))) !! 0
  = Some (FResult (pong "r1")).
Proof.
  apply (done_future_is_final parse_wire
           (after (one_request ++ [EvReceive 0 101%N (pong "r1")]))
           [EvReceive 0 102%N (pong "r1")] _ 0 (FResult (pong "r1"))).
  - vm_compute. reflexivity.
  - reflexivity.
  - vm_compute. reflexivity.
Defined.

(** X3: in every state of the loop an entry of the pending map refers to
    a future that exists and holds no response, and no other key refers to
    the same future. *)
Theorem pending_entry_awaits_response parse σ k (f : Future) :
  reachable parse σ →
  pending_requests (st σ) !! k = Some f →
  is_Some (futures (st σ) !! f)
  ∧ (∀ r, futures (st σ) !! f ≠ Some (FResult r))
  ∧ (∀ k', pending_requests (st σ) !! k' = Some f → k' = k).
Proof.
  intros HI%Inv_reachable Hk. split_and!.
  - apply lookup_lt_is_Some_2. by eapply pending_bound.
  - intros r. by eapply pending_unresolved.
  - intros k' Hk'. by eapply pending_inj.
Qed.

Lemma pending_entry_awaits_response_witness :
  is_Some (futures (st (after two_requests)) !! 1).
Proof.
  refine (proj1 (pending_entry_awaits_response parse_wire (after two_requests)
            "r2" 1 _ _)).
  - exists two_requests. vm_compute. reflexivity.
  - vm_compute. reflexivity.
Defined.

(** X4: when the write to the executor fails, [send_to_unity] raises the
    error of the transport after it has stored its future: the entry stays
    in the pending map under the identifier of the request, with a future
    nobody waits on, and no frame was written. *)
Theorem failed_send_leaves_entry s now obj m u text :
  unity_connection s = Some u →
  broken s !! u = Some text →
  let out := send_to_unity_begin s now obj m in
  out.2 = Raise (RuntimeError text)
  ∧ pending_requests out.1.1 !! request_id_of obj m = Some (length (futures s))
  ∧ futures out.1.1 !! length (futures s) = Some FPending
  ∧ sent out.1.1 = sent s
  ∧ (∀ r params,
       (route_begin r s now obj params).2 = inl (Return (failure (RuntimeError text)))).
Proof.
  intros Hu Hb. unfold route_begin, send_to_unity_begin, send_json.
  rewrite Hu. simpl. rewrite Hb. simpl. split_and!; try done.
  - apply lookup_insert_eq.
  - by apply list_lookup_middle.
Qed.

Lemma failed_send_leaves_entry_witness :
  pending_requests
    (send_to_unity_begin (st (after broken_executor)) 0 100%N (ping None)).1.1
  !! "100" = Some 0.
Proof.
  refine (proj1 (proj2 (failed_send_leaves_entry (st (after broken_executor)) 0 100%N
          (ping None) 0 "Cannot call send once a close message has been sent." _ _))).
  - vm_compute. reflexivity.
  - vm_compute. reflexivity.
Defined.


Lemma list_remove_snoc (l : list WebSocket) w : w ∉ l → list_remove w (l ++ [w]) = Some l.
Proof.
  induction l as [|y l IH]; intros Hw; simpl.
  - by rewrite decide_True.
  - apply not_elem_of_cons in Hw as [Hne Hw].
    rewrite decide_False by done. by rewrite IH.
Qed.

(** X5: in every state of the loop, a connection that registers and is
    then dropped leaves the active connections, the pending map, the
    futures and the frames written as they were.  The executor slot is as
    it was when the connection declared another type than "unity"; when it
    declared "unity" the slot is empty afterwards, whatever it held
    before, so an executor that was superseded stays connected without
    being the executor again. *)
Theorem connect_then_disconnect parse σ w client_type :
  reachable parse σ →
  w ∉ active_connections (st σ) →
  let s := st σ in
  let s' := (disconnect (connect s w client_type) w).1 in
  (disconnect (connect s w client_type) w).2 = Return ()
  ∧ active_connections s' = active_connections s
  ∧ pending_requests s' = pending_requests s
  ∧ futures s' = futures s
  ∧ sent s' = sent s
  ∧ (client_type ≠ "unity" → unity_connection s' = unity_connection s)
  ∧ (client_type = "unity" → unity_connection s' = None
       ∧ ∀ now obj m, (send_to_unity_begin s' now obj m).2
                      = Raise (Exception "No Unity connection available")).
Proof.
  intros HI%Inv_reachable Hw s s'. subst s s'. unfold connect, disconnect.
  destruct (String.eqb client_type "unity") eqn:Hct; simpl;
    rewrite (list_remove_snoc _ _ Hw); simpl.
  - rewrite decide_True by done. simpl. split_and!; try done.
    intros Hne. by apply String.eqb_eq in Hct.
  - apply String.eqb_neq in Hct.
    assert (unity_connection (st σ) ≠ Some w) as Hu.
    { intros Hu. apply Hw. by eapply unity_active. }
    rewrite decide_False by done. simpl. split_and!; done.
Qed.

Lemma connect_then_disconnect_witness :
  unity_connection (disconnect (connect (st (after one_request)) 5 "unity") 5).1 = None.
Proof.
  refine (proj1 (proj2 (proj2 (proj2 (proj2 (proj2 (proj2
    (connect_then_disconnect parse_wire (after one_request) 5 "unity" _ _)))))) eq_refl)).
  - exists one_request. vm_compute. reflexivity.
  - vm_compute. intros H. repeat (apply elem_of_cons in H as [H|H]; [discriminate|]).
    by apply elem_of_nil in H.
Defined.

(** X6: in every state of the loop, dropping a connection a second time
    raises the [ValueError] of [list.remove] and changes nothing; so does
    dropping a connection that never registered. *)
Theorem second_disconnect_raises parse σ w :
  reachable parse σ →
  let s1 := (disconnect (st σ) w).1 in
  disconnect s1 w = (s1, Raise (ValueError "list.remove(x): x not in list"))
  ∧ (w ∉ active_connections (st σ) →
       disconnect (st σ) w
       = (st σ, Raise (ValueError "list.remove(x): x not in list"))).
Proof.
  intros HI%Inv_reachable s1.
  assert (∀ s, w ∉ active_connections s →
            disconnect s w = (s, Raise (ValueError "list.remove(x): x not in list")))
    as Hout.
  { intros s Hs. unfold disconnect. apply list_remove_None in Hs. by rewrite Hs. }
  split; [|apply Hout]. apply Hout. subst s1. unfold disconnect.
  destruct (list_remove w (active_connections (st σ))) as [l|] eqn:Hl.
  - apply list_remove_Some in Hl as (_ & _ & Hnot & _).
    assert (w ∉ l) by (apply Hnot; by eapply active_nodup).
    simpl. by case_decide.
  - by apply list_remove_None in Hl.
Qed.

Lemma second_disconnect_raises_witness :
  disconnect (disconnect (st (after one_request)) 1).1 1
  = ((disconnect (st (after one_request)) 1).1,
     Raise (ValueError "list.remove(x): x not in list")).
Proof.
  refine (proj1 (second_disconnect_raises parse_wire (after one_request) 1 _)).
  exists one_request. vm_compute. reflexivity.
Defined.

(** * Requests from submission to outcome *)

Lemma send_to_unity_begin_sent s now obj m u :
  unity_connection s = Some u →
  broken s !! u = None →
  let k := request_id_of obj m in
  let f := length (futures s) in
  send_to_unity_begin s now obj m
  = (set_sent (λ l, l ++ [(u, Message (Some k) (m_fields m))])
       (set_pending (λ p, <[k := f]> p) (set_futures (λ l, l ++ [FPending]) s)),
     Message (Some k) (m_fields m),
     Return (Call obj (bool_decide (m_id m = None)) k f (now + timeout))).
Proof.
  intros Hu Hb. unfold send_to_unity_begin, send_json. rewrite Hu. simpl.
  by rewrite Hb.
Qed.

Lemma response_after_begin s k (f : Future) response :
  f = length (futures s) →
  m_id response = Some k →
  let s1 := set_pending (λ p, <[k := f]> p) (set_futures (λ l, l ++ [FPending]) s) in
  ∀ s1', pending_requests s1' = pending_requests s1 → futures s1' = futures s1 →
    wait_for (handle_unity_response s1' response) f = Some (Return response)
    ∧ pending_requests (handle_unity_response s1' response)
      = delete k (pending_requests s).
Proof.
  intros -> Hid s1 s1' Hp Hf.
  assert (pending_requests s1' !! k = Some (length (futures s))) as Hk.
  { rewrite Hp. simpl. apply lookup_insert_eq. }
  assert (futures s1' !! length (futures s) = Some FPending) as Hfut.
  { rewrite Hf. simpl. by apply list_lookup_middle. }
  rewrite (handle_unity_response_match s1' k _ response Hk Hfut Hid).
  unfold wait_for. simpl. split.
  - rewrite list_lookup_insert_eq; [done|]. by eapply lookup_lt_Some.
  - rewrite Hp. simpl. apply delete_insert_eq.
Qed.

(** X7: a route called with a writable executor registered writes one
    frame to the executor, the function name and the parameters under a
    generated identifier, and suspends; when a response with that
    identifier comes, the call is resumed with it, the pending map is the
    one before the call without that identifier, and the route returns
    the response as validated, or [success] false with the text of the
    validation error. *)
Theorem route_round_trip parse r s now obj params u response :
  unity_connection s = Some u →
  broken s !! u = None →
  m_id response = Some (pretty obj) →
  let k := pretty obj in
  let c := Call obj true k (length (futures s)) (now + timeout) in
  let s1 := (route_begin r s now obj params).1 in
  let s2 := handle_unity_response s1 response in
  (route_begin r s now obj params).2 = inr c
  ∧ sent s1 = sent s ++ [(u, Message (Some k) (m_fields (route_message r params)))]
  ∧ wait_for s2 (c_future c) = Some (Return response)
  ∧ pending_requests s2 = delete k (pending_requests s)
  ∧ (route_end parse r s2 c (Return response)).2
    = match parse response with
      | Return out => Return out
      | Raise e => Return (failure e)
      end.
Proof.
  intros Hu Hb Hid k c s1 s2. subst s1 s2. unfold route_begin.
  rewrite (send_to_unity_begin_sent s now obj (route_message r params) u Hu Hb).
  simpl. split_and!; [done | done | | |].
  - eapply (response_after_begin s k); done.
  - eapply (response_after_begin s k); done.
  - unfold route_end. simpl. by destruct (parse response).
Qed.

Lemma route_round_trip_witness :
  wait_for
    (handle_unity_response
       (route_begin ManageEditor (st (after [EvOpen 0 "unity"])) 0 7%N (JObj [])).1
       (pong "7")) 0
  = Some (Return (pong "7")).
Proof.
  refine (proj1 (proj2 (proj2 (route_round_trip parse_wire ManageEditor
            (st (after [EvOpen 0 "unity"])) 0 7%N (JObj []) 0 (pong "7") _ _ _)))).
  - vm_compute. reflexivity.
  - vm_compute. reflexivity.
  - vm_compute. reflexivity.
Defined.

Lemma handle_unity_response_broken s response :
  broken (handle_unity_response s response) = broken s.
Proof.
  unfold handle_unity_response, unknown_request.
  destruct (m_id response) as [k|]; [|done].
  destruct (pending_requests s !! k) as [f|]; [|done]. simpl.
  destruct (futures s !! f) as [x|]; [|done]. by destruct (done x).
Qed.

Lemma websocket_resume_relays s websocket m c response :
  broken s !! websocket = None →
  websocket_resume s websocket m c (Return response)
  = (set_sent (λ l, l ++ [(websocket, response)]) s, Return Continue).
Proof. intros Hw. unfold websocket_resume, send_json. simpl. by rewrite Hw. Qed.

(** X8: a request with a function name, from a client whose connection
    and whose executor can be written to, is written to the executor with
    its fields as they are and its identifier, the one it came with or a
    generated one; the response with that identifier is written to the
    client as it is, and the pending map is the one before the request
    without that identifier. *)
Theorem websocket_round_trip s now websocket obj m u response :
  unity_connection s = Some u →
  broken s !! u = None →
  broken s !! websocket = None →
  falsy (get m "function") = false →
  m_id response = Some (request_id_of obj m) →
  let k := request_id_of obj m in
  let m' := Message (Some k) (m_fields m) in
  let c := Call obj (bool_decide (m_id m = None)) k (length (futures s)) (now + timeout) in
  let s1 := (websocket_request s now websocket obj m).1 in
  let s2 := handle_unity_response s1 response in
  (websocket_request s now websocket obj m).2 = Return (Awaiting m' c)
  ∧ sent s1 = sent s ++ [(u, m')]
  ∧ wait_for s2 (c_future c) = Some (Return response)
  ∧ pending_requests s2 = delete k (pending_requests s)
  ∧ websocket_resume s2 websocket m' c (Return response)
    = (set_sent (λ l, l ++ [(websocket, response)]) s2, Return Continue).
Proof.
  intros Hu Hb Hw Hfn Hid k m' c s1 s2. subst s1 s2. unfold websocket_request.
  rewrite Hfn, (send_to_unity_begin_sent s now obj m u Hu Hb).
  simpl. split_and!; [done | done | | |].
  - eapply (response_after_begin s k); done.
  - eapply (response_after_begin s k); done.
  - apply websocket_resume_relays. by rewrite handle_unity_response_broken.
Qed.

Lemma websocket_round_trip_witness :
  (websocket_request (st (after [EvOpen 0 "unity"; EvOpen 1 "mcp_client"])) 0 1 9%N
     (ping None)).2
  = Return (Awaiting (Message (Some "9") (m_fields (ping None)))
              (Call 9%N true "9" 0 30)).
Proof.
  refine (proj1 (websocket_round_trip
            (st (after [EvOpen 0 "unity"; EvOpen 1 "mcp_client"])) 0 1 9%N
            (ping None) 0 (pong "9") _ _ _ _ _)).
  - vm_compute. reflexivity.
  - vm_compute. reflexivity.
  - vm_compute. reflexivity.
  - vm_compute. reflexivity.
  - vm_compute. reflexivity.
Defined.

(** X9: a request forwarded for a client, with no response by the time
    its timer fires and its entry still in the pending map, is answered
    with [success] false and "Request to Unity timed out" under the
    identifier it was registered with, which is the generated one when the
    client sent none; the entry is deleted and the future is cancelled. *)
Theorem forwarded_request_times_out s now websocket obj m u :
  unity_connection s = Some u →
  broken s !! u = None →
  broken s !! websocket = None →
  falsy (get m "function") = false →
  let k := request_id_of obj m in
  let m' := Message (Some k) (m_fields m) in
  let f := length (futures s) in
  let c := Call obj (bool_decide (m_id m = None)) k f (now + timeout) in
  let s1 := (websocket_request s now websocket obj m).1 in
  let s2 := expire s1 f in
  let out := websocket_resume s2 websocket m' c (Raise TimeoutError) in
  wait_for s1 f = None
  ∧ wait_for s2 f = Some (Raise TimeoutError)
  ∧ out.2 = Return Continue
  ∧ last (sent out.1)
    = Some (websocket, Message (Some k) {[ "success" := JBool false;
                                          "error" := JStr "Request to Unity timed out" ]})
  ∧ pending_requests out.1 = delete k (pending_requests s)
  ∧ futures out.1 !! f = Some FCancelled.
Proof.
  intros Hu Hb Hw Hfn k m' f c s1 s2 out. subst out s2 s1.
  unfold websocket_request.
  rewrite Hfn, (send_to_unity_begin_sent s now obj m u Hu Hb). simpl.
  unfold expire, wait_for. simpl. rewrite list_lookup_middle by done. simpl.
  rewrite list_lookup_insert_eq by (rewrite length_app; simpl; lia).
  unfold websocket_resume, send_to_unity_end. simpl.
  rewrite lookup_insert_eq.
  unfold websocket_except, send_json. simpl. rewrite Hw. simpl.
  split_and!; try done.
  - by rewrite last_snoc.
  - apply delete_insert_eq.
  - apply list_lookup_insert_eq. rewrite length_app. simpl. lia.
Qed.

Lemma forwarded_request_times_out_witness :
  m_id <$> (snd <$> last (sent
    (websocket_resume
       (expire (websocket_request
                  (st (after [EvOpen 0 "unity"; EvOpen 1 "mcp_client"])) 0 1 9%N
                  (ping None)).1 0)
       1 (Message (Some "9") (m_fields (ping None))) (Call 9%N true "9" 0 30)
       (Raise TimeoutError)).1))
  = Some (Some "9").
Proof.
  pose proof (forwarded_request_times_out
                (st (after [EvOpen 0 "unity"; EvOpen 1 "mcp_client"])) 0 1 9%N
                (ping None) 0) as H.
  destruct H as (_ & _ & _ & H & _).
  - vm_compute. reflexivity.
  - vm_compute. reflexivity.
  - vm_compute. reflexivity.
  - vm_compute. reflexivity.
  - change (length (futures (st (after [EvOpen 0 "unity"; EvOpen 1 "mcp_client"])))) with 0 in H.
    change (request_id_of 9%N (ping None)) with "9" in H.
    change (0 + timeout) with 30 in H.
    change (bool_decide (m_id (ping None) = None)) with true in H.
    rewrite H. reflexivity.
Defined.

(** * Every suspended call ends *)

Lemma send_to_unity_begin_deadline s now obj m s' m' c :
  send_to_unity_begin s now obj m = (s', m', Return c) → c_deadline c = now + timeout.
Proof.
  unfold send_to_unity_begin, send_json.
  destruct (unity_connection s) as [u|]; [|done]. simpl.
  destruct (broken s !! u); [done|]. by intros [= _ _ <-].
Qed.

Lemma websocket_except_not_awaiting s websocket m e m' c :
  (websocket_except s websocket m e).2 ≠ Return (Awaiting m' c).
Proof. unfold websocket_except. by destruct (send_json _ _ _) as [s2 [[]|e']]. Qed.

Lemma websocket_message_deadline s now websocket client_type obj m m' c :
  (websocket_message s now websocket client_type obj m).2 = Return (Awaiting m' c) →
  c_deadline c = now + timeout.
Proof.
  unfold websocket_message, websocket_request.
  destruct (String.eqb client_type "unity"); [done|].
  destruct (falsy (get m "function")).
  - destruct (send_json _ _ _) as [s1 [[]|e]]; [done|].
    intros H. by apply websocket_except_not_awaiting in H.
  - destruct (send_to_unity_begin s now obj m) as [[s1 m1] [c1|e]] eqn:Hb.
    + intros [= _ <-]. by eapply send_to_unity_begin_deadline.
    + intros H. by apply websocket_except_not_awaiting in H.
Qed.

Lemma websocket_resume_not_awaiting s websocket m c w m' c' :
  (websocket_resume s websocket m c w).2 ≠ Return (Awaiting m' c').
Proof.
  unfold websocket_resume. destruct (send_to_unity_end s c w) as [s1 [response|e]].
  - destruct (send_json _ _ _) as [s2 [[]|e]]; [done|].
    apply websocket_except_not_awaiting.
  - apply websocket_except_not_awaiting.
Qed.

Lemma settle_tasks σ ts websocket s1 r :
  now (settle σ ts websocket (s1, r)) = now σ
  ∧ (tasks (settle σ ts websocket (s1, r)) = ts
     ∨ ∃ m c, r = Return (Awaiting m c)
              ∧ tasks (settle σ ts websocket (s1, r)) = ts ++ [Task (WsCaller websocket m) c]).
Proof.
  destruct r as [[|m c]|e]; simpl; (split; [done|]); [by left | | by left].
  right. by exists m, c.
Qed.

(** The deadline of every suspended call is at most [timeout] ahead. *)
Lemma step_deadlines parse σ ev σ' :
  (∀ t, t ∈ tasks σ → c_deadline (t_call t) ≤ now σ + timeout) →
  step parse σ ev = Some σ' →
  ∀ t, t ∈ tasks σ' → c_deadline (t_call t) ≤ now σ' + timeout.
Proof.
  intros Hq Hs. destruct ev; simpl in Hs.
  - simplify_eq. simpl. intros t Ht%Hq. lia.
  - case_decide; by simplify_eq.
  - destruct (sessions σ !! websocket); by simplify_eq.
  - by simplify_eq.
  - case_decide; [done|]. unfold route_begin in Hs.
    destruct (send_to_unity_begin _ _ _ _) as [[s1 m'] [c|e]] eqn:Hb; simplify_eq/=.
    + intros t [Ht| ->%list_elem_of_singleton]%elem_of_app; [auto|]. simpl.
      by rewrite (send_to_unity_begin_deadline _ _ _ _ _ _ _ Hb).
    + done.
  - destruct (sessions σ !! websocket) as [client_type|]; [|done].
    case_decide; simplify_eq.
    pose proof (websocket_message_deadline (st σ) (now σ) websocket client_type obj m) as Hd.
    destruct (websocket_message _ _ _ _ _ _) as [s1 r].
    destruct (settle_tasks σ (tasks σ) websocket s1 r) as [-> [-> | (m' & c & -> & ->)]];
      [done|].
    intros t [Ht| ->%list_elem_of_singleton]%elem_of_app; [auto|]. simpl.
    by rewrite (Hd m' c).
  - destruct (tasks σ !! i) as [t0|]; [|done]. case_decide; by simplify_eq.
  - destruct (tasks σ !! i) as [t0|]; [|done].
    destruct (wait_for _ _) as [w|]; [|done].
    destruct (t_caller t0) as [r|websocket m]; simplify_eq.
    + simpl. intros t Ht%list_elem_of_delete_inv. auto.
    + pose proof (websocket_resume_not_awaiting (st σ) websocket m (t_call t0) w) as Hn.
      destruct (websocket_resume _ _ _ _ _) as [s1 r].
      destruct (settle_tasks σ (delete i (tasks σ)) websocket s1 r)
        as [-> [-> | (m' & c & -> & _)]].
      * intros t Ht%list_elem_of_delete_inv. auto.
      * by destruct (Hn m' c).
Qed.

Lemma run_deadlines parse evs : ∀ σ σ',
  (∀ t, t ∈ tasks σ → c_deadline (t_call t) ≤ now σ + timeout) →
  run parse σ evs = Some σ' →
  ∀ t, t ∈ tasks σ' → c_deadline (t_call t) ≤ now σ' + timeout.
Proof.
  induction evs as [|ev evs IH]; intros σ σ' Hq Hr; simpl in Hr.
  - by simplify_eq.
  - destruct (step parse σ ev) as [σ1|] eqn:Hs; [|done].
    eapply IH; [|done]. by eapply step_deadlines.
Qed.

Lemma run_app parse evs1 evs2 σ σ1 :
  run parse σ evs1 = Some σ1 → run parse σ (evs1 ++ evs2) = run parse σ1 evs2.
Proof.
  revert σ. induction evs1 as [|ev evs1 IH]; intros σ Hr; simpl in *.
  - by simplify_eq.
  - destruct (step parse σ ev); [by apply IH | done].
Qed.

Lemma run_ticks parse n σ :
  run parse σ (replicate n EvTick)
  = Some (System (st σ) (now σ + n) (sessions σ) (tasks σ)).
Proof.
  revert σ. induction n as [|n IH]; intros σ; simpl.
  - destruct σ. simpl. by rewrite Nat.add_0_r.
  - rewrite IH. simpl. do 2 f_equal. lia.
Qed.

(** What [wait_for] gives once the timer has fired. *)
Lemma wait_for_expire s (f : Future) :
  f < length (futures s) → is_Some (wait_for (expire s f) f).
Proof.
  intros Hlt. unfold expire. destruct (futures s !! f) as [x|] eqn:Hx.
  - destruct x; unfold wait_for; simpl; [|rewrite Hx; eauto..].
    rewrite list_lookup_insert_eq by done. eauto.
  - apply lookup_ge_None in Hx. lia.
Qed.

(** X10: in every state of the loop the deadline of a suspended call is at
    most 30 time units ahead, and once the clock has reached it the timer
    can fire and the call can be resumed: it then ends, with the response
    or with an exception, and is suspended no more.  No call waits for
    ever. *)
Theorem suspended_call_ends_by_deadline parse σ i t :
  reachable parse σ →
  tasks σ !! i = Some t →
  let d := c_deadline (t_call t) in
  d ≤ now σ + timeout
  ∧ ∃ σ', run parse σ (replicate (d - now σ) EvTick ++ [EvDeadline i; EvResume i])
          = Some σ'
          ∧ tasks σ' = delete i (tasks σ)
          ∧ now σ' = now σ + (d - now σ).
Proof.
  intros Hr Ht d. pose proof (Inv_reachable parse σ Hr) as HI.
  assert (d ≤ now σ + timeout) as Hd.
  { destruct Hr as [evs Hr].
    refine (run_deadlines parse evs boot σ _ Hr t _).
    - intros t0 Ht0. by apply elem_of_nil in Ht0.
    - by eapply list_elem_of_lookup_2. }
  split; [done|].
  rewrite (run_app parse _ _ σ _ (run_ticks parse (d - now σ) σ)).
  set (σ0 := System (st σ) (now σ + (d - now σ)) (sessions σ) (tasks σ)).
  assert (c_future (t_call t) < length (futures (st σ))) as Hf.
  { apply (calls_bound _ _ _ _ _ _ HI). apply list_elem_of_fmap.
    exists t. split; [done | by eapply list_elem_of_lookup_2]. }
  destruct (wait_for_expire (st σ) _ Hf) as [w Hw].
  simpl. rewrite Ht. rewrite decide_True by (subst d; lia).
  simpl. rewrite Ht, Hw.
  destruct (t_caller t) as [r|websocket m].
  - eexists. split; [done|]. done.
  - pose proof (websocket_resume_not_awaiting (expire (st σ) (c_future (t_call t)))
                  websocket m (t_call t) w) as Hn.
    destruct (websocket_resume _ _ _ _ _) as [s1 r].
    eexists. split; [done|].
    match goal with |- context [settle ?σx ?ts _ _] =>
      destruct (settle_tasks σx ts websocket s1 r) as [-> [-> | (m' & c & -> & _)]] end;
      [done|]. by destruct (Hn m' c).
Qed.

Lemma suspended_call_ends_by_deadline_witness :
  c_deadline call_r1 ≤ now (after one_request) + timeout.
Proof.
  refine (proj1 (suspended_call_ends_by_deadline parse_wire (after one_request) 0
            (Task (WsCaller 1 (ping (Some "r1"))) call_r1) _ _)).
  - exists one_request. vm_compute. reflexivity.
  - vm_compute. reflexivity.
Defined.

(** * The generator of meta files *)

Lemma endswith_app s suffix : endswith (s +:+ suffix) suffix = true.
Proof.
  induction s as [|c s IH]; simpl.
  - destruct suffix; simpl; [done|]. by rewrite Ascii.eqb_refl, String.eqb_refl.
  - rewrite IH. by rewrite orb_true_r.
Qed.

Lemma skipped_meta item : skipped (item +:+ ".meta") = true.
Proof. unfold skipped. by rewrite endswith_app, orb_true_r. Qed.

Lemma remove_dashes_app s1 s2 :
  remove_dashes (s1 +:+ s2) = remove_dashes s1 +:+ remove_dashes s2.
Proof.
  induction s1 as [|c s1 IH]; simpl; [done|].
  destruct (Ascii.eqb c "-"); simpl; by rewrite IH.
Qed.

Lemma remove_dashes_dashless s : has_dash s = false → remove_dashes s = s.
Proof.
  induction s as [|c s IH]; simpl; [done|].
  destruct (Ascii.eqb c "-"); simpl; [done|]. intros Hs. by rewrite IH.
Qed.

Lemma has_dash_remove_dashes s : has_dash (remove_dashes s) = false.
Proof.
  induction s as [|c s IH]; simpl; [done|].
  destruct (Ascii.eqb c "-") eqn:Hc; simpl; [done|]. by rewrite Hc.
Qed.

Lemma length_append s1 s2 :
  String.length (s1 +:+ s2) = String.length s1 + String.length s2.
Proof. induction s1 as [|c s1 IH]; simpl; [done | by rewrite IH]. Qed.

(** X11: [generate_guid] answers a text without dash, whatever the text of
    the uuid; for a uuid in five groups without dash in them, separated by
    dashes, it is the groups put together, 32 characters when the groups
    have 8, 4, 4, 4 and 12. *)
Theorem generate_guid_joins_groups a b c d e :
  has_dash a = false → has_dash b = false → has_dash c = false →
  has_dash d = false → has_dash e = false →
  generate_guid (a +:+ "-" +:+ b +:+ "-" +:+ c +:+ "-" +:+ d +:+ "-" +:+ e)
  = a +:+ b +:+ c +:+ d +:+ e
  ∧ (∀ uuid, has_dash (generate_guid uuid) = false)
  ∧ (String.length a = 8 → String.length b = 4 → String.length c = 4 →
     String.length d = 4 → String.length e = 12 →
     String.length (generate_guid
       (a +:+ "-" +:+ b +:+ "-" +:+ c +:+ "-" +:+ d +:+ "-" +:+ e)) = 32).
Proof.
  intros Ha Hb Hc Hd He.
  assert (generate_guid (a +:+ "-" +:+ b +:+ "-" +:+ c +:+ "-" +:+ d +:+ "-" +:+ e)
          = a +:+ b +:+ c +:+ d +:+ e) as Heq.
  { unfold generate_guid. rewrite !remove_dashes_app. simpl.
    by rewrite !remove_dashes_dashless. }
  split_and!; [done | apply has_dash_remove_dashes |].
  intros La Lb Lc Ld Le. rewrite Heq, !length_append. lia.
Qed.

Lemma generate_guid_joins_groups_witness :
  generate_guid "123e4567-e89b-42d3-a456-426614174000"
  = "123e4567e89b42d3a456426614174000".
Proof.
  refine (proj1 (generate_guid_joins_groups "123e4567" "e89b" "42d3" "a456"
                   "426614174000" _ _ _ _ _)); reflexivity.
Defined.

Lemma node_nested_ind (P : node → Prop) :
  (∀ c, P (File c)) →
  (∀ es, Forall (λ e, P e.2) es → P (Dir es)) →
  ∀ n, P n.
Proof.
  intros Hf Hd. fix IH 1. intros [c|es]; [apply Hf|]. apply Hd.
  induction es as [|[item child] es IHes]; constructor; [apply IH | apply IHes].
Qed.

Lemma format_template path is_folder :
  ∃ rest, ∀ guid,
    format (template_for path is_folder) guid
    = Return ("fileFormatVersion: 2
guid: " +:+ guid +:+ rest).
Proof.
  unfold template_for.
  destruct is_folder; [eexists; intros guid; reflexivity|].
  repeat (match goal with |- context [if ?b then _ else _] => destruct b end);
    eexists; intros guid; reflexivity.
Qed.

(** X12: [create_meta_file] does not raise.  When the meta file is there
    it adds nothing, draws no uuid and prints that it exists; otherwise it
    draws one uuid and adds one file, named after the path with ".meta",
    whose text is the version line, the line of the guid made from that
    uuid, and a rest that depends on the kind of the path only. *)
Theorem create_meta_file_writes_guid uuid4 names path name is_folder w :
  (name +:+ ".meta" ∈ names →
     create_meta_file uuid4 names path name is_folder w
     = ([], print w ("Meta file already exists: " +:+ path +:+ ".meta"), None))
  ∧ ∃ rest,
      name +:+ ".meta" ∉ names →
      create_meta_file uuid4 names path name is_folder w
      = ([(name +:+ ".meta",
           File ("fileFormatVersion: 2
guid: " +:+ generate_guid (uuid4 (next_uuid w)) +:+ rest))],
         print (Shell (S (next_uuid w)) (stdout w))
           ("Created meta file: " +:+ path +:+ ".meta"), None).
Proof.
  unfold create_meta_file. split.
  - intros Hin. by rewrite bool_decide_eq_true_2.
  - destruct (format_template path is_folder) as [rest Hrest]. exists rest.
    intros Hnot. rewrite bool_decide_eq_false_2 by done. by rewrite Hrest.
Qed.

Lemma create_meta_file_writes_guid_witness :
  create_meta_file (λ _, "123e4567-e89b-42d3-a456-426614174000") ["A.cs"; "A.cs.meta"]
    "WindsurfUnityMCP/A.cs" "A.cs" false (Shell 0 [])
  = ([], print (Shell 0 []) "Meta file already exists: WindsurfUnityMCP/A.cs.meta", None).
Proof.
  refine (proj1 (create_meta_file_writes_guid _ ["A.cs"; "A.cs.meta"]
            "WindsurfUnityMCP/A.cs" "A.cs" false (Shell 0 [])) _).
  right. left.
Defined.

Lemma grown_refl n : grown n n.
Proof.
  induction n as [c|es IH] using node_nested_ind; [constructor|].
  rewrite <-(app_nil_r es) at 2. constructor; [|constructor].
  induction IH as [|[item child] es Hc _ IHes]; constructor; [|done].
  by split_and!.
Qed.

Lemma create_meta_file_cases uuid4 names path name is_folder w :
  ∃ added w',
    create_meta_file uuid4 names path name is_folder w = (added, w', None)
    ∧ name +:+ ".meta" ∈ names ++ added.*1
    ∧ Forall (λ e, ∃ c, e = (name +:+ ".meta", File c) ∧ e.1 ∉ names) added
    ∧ next_uuid w ≤ next_uuid w'
    ∧ (name +:+ ".meta" ∈ names → added = [] ∧ next_uuid w' = next_uuid w).
Proof.
  destruct (create_meta_file_writes_guid uuid4 names path name is_folder w)
    as [Hin [rest Hout]].
  destruct (decide (name +:+ ".meta" ∈ names)) as [H|H].
  - rewrite (Hin H). eexists _, _. split_and!; try done.
    simpl. by rewrite app_nil_r.
  - rewrite (Hout H). eexists _, _. split_and!; try done.
    + simpl. set_solver.
    + constructor; [|constructor]. eauto.
    + simpl. lia.
Qed.


Lemma item_tagged_mono base new new' e :
  item_tagged base new e → item_tagged base (new ++ new') e.
Proof.
  intros [H|[H1 H2]]; [by left | right]. split; [|done].
  rewrite fmap_app. set_solver.
Qed.

Lemma process_items_spec uuid4 directory es :
  ∀ items pre kept new w,
    es = pre ++ items →
    Forall (λ e, ∀ es0, e.2 = Dir es0 → processes uuid4 e.2) items →
    Forall2 item_kept pre kept →
    Forall (meta_added es) new →
    Forall (item_tagged es.*1 new) kept →
    ∃ kept' new' w',
      process_items (process_directory uuid4) uuid4 directory es.*1 items kept new w
      = (kept', new', w', None)
      ∧ Forall2 item_kept es kept'
      ∧ Forall (meta_added es) new'
      ∧ Forall (item_tagged es.*1 new') kept'
      ∧ next_uuid w ≤ next_uuid w'.
Proof.
  induction items as [|[item child] rest IH]; intros pre kept new w Hes Hrec Hk Hn Ht.
  - rewrite app_nil_r in Hes. subst pre. simpl. eexists _, _, _. by split_and!.
  - apply Forall_cons in Hrec as [Hchild Hrec]. simpl in Hchild.
    assert (es = (pre ++ [(item, child)]) ++ rest) as Hes' by by rewrite <-app_assoc.
    assert (item ∈ es.*1) as Hitem.
    { rewrite Hes, fmap_app. simpl. set_solver. }
    simpl. destruct (skipped item) eqn:Hskip.
    { apply (IH (pre ++ [(item, child)])); try done.
      - apply Forall2_app; [done|]. constructor; [|constructor].
        split_and!; [done | done | apply grown_refl].
      - apply Forall_app. split; [done|]. constructor; [|constructor]. by left. }
    destruct child as [c|es0].
    + destruct (create_meta_file_cases uuid4 (es.*1 ++ new.*1)
                  (path_join directory item) item false w)
        as (added & w1 & -> & Hin & Hadded & Hle & _).
      destruct (IH (pre ++ [(item, File c)]) (kept ++ [(item, File c)])
                  (new ++ added) w1) as (kept' & new' & w' & -> & ? & ? & ? & ?);
        try done.
      * apply Forall2_app; [done|]. constructor; [|constructor].
        split_and!; [done | done | apply grown_refl].
      * apply Forall_app. split; [done|].
        eapply Forall_impl; [exact Hadded|]. intros e (c0 & -> & Hnot).
        exists item, c0. split_and!; try done. set_solver.
      * apply Forall_app. split.
        -- eapply Forall_impl; [exact Ht|]. intros e. apply item_tagged_mono.
        -- constructor; [|constructor]. right. split; [|done].
           simpl. rewrite fmap_app, app_assoc. done.
      * eexists _, _, _. split_and!; try done. lia.
    + destruct (Hchild es0 eq_refl (es.*1 ++ new.*1) (path_join directory item) item w)
        as (added & child' & w1 & -> & Hgrown & Htag & Hin & Hadded & Hle).
      destruct (IH (pre ++ [(item, Dir es0)]) (kept ++ [(item, child')])
                  (new ++ added) w1) as (kept' & new' & w' & -> & ? & ? & ? & ?);
        try done.
      * apply Forall2_app; [done|]. constructor; [|constructor].
        split_and!; [done | simpl; congruence | done].
      * apply Forall_app. split; [done|].
        eapply Forall_impl; [exact Hadded|]. intros e (c0 & -> & Hnot).
        exists item, c0. split_and!; try done. set_solver.
      * apply Forall_app. split.
        -- eapply Forall_impl; [exact Ht|]. intros e. apply item_tagged_mono.
        -- constructor; [|constructor]. right. split; [|done].
           simpl. rewrite fmap_app, app_assoc. done.
      * eexists _, _, _. split_and!; try done. lia.
Qed.

Lemma process_directory_Dir uuid4 names directory name es w :
  process_directory uuid4 names directory name (Dir es) w
  = match create_meta_file uuid4 names directory name true w with
    | (added, w1, Some e) => (added, Dir es, w1, Some e)
    | (added, w1, None) =>
        let '(kept, new, w2, err) :=
          process_items (process_directory uuid4) uuid4 directory (es.*1) es [] [] w1 in
        (added, Dir (kept ++ new), w2, err)
    end.
Proof. reflexivity. Qed.

Lemma tagged_Dir es :
  tagged (Dir es) = true ↔
  ∀ e, e ∈ es →
    skipped e.1 = true ∨ (e.1 +:+ ".meta" ∈ es.*1 ∧ tagged e.2 = true).
Proof.
  change (tagged (Dir es))
    with (forallb (λ e, skipped e.1
                        || (bool_decide (e.1 +:+ ".meta" ∈ es.*1) && tagged e.2)) es).
  rewrite forallb_forall. split; intros H e He.
  - apply list_elem_of_In, H in He.
    apply orb_true_iff in He as [?|[?%bool_decide_eq_true ?]%andb_true_iff]; auto.
  - apply list_elem_of_In, H in He. apply orb_true_iff.
    destruct He as [?|[? ?]]; [by left | right].
    apply andb_true_iff. by rewrite bool_decide_eq_true.
Qed.

Lemma Forall2_item_kept_names es kept : Forall2 item_kept es kept → kept.*1 = es.*1.
Proof.
  induction 1 as [|e e' es kept (Hname & _) _ IH]; [done|].
  rewrite !fmap_cons. by rewrite IH, Hname.
Qed.

Lemma processes_Dir uuid4 n : ∀ es, n = Dir es → processes uuid4 n.
Proof.
  induction n as [c|es IH] using node_nested_ind; [done|].
  intros ? [= <-] names directory name w.
  rewrite process_directory_Dir.
  destruct (create_meta_file_cases uuid4 names directory name true w)
    as (added & w1 & -> & Hin & Hadded & Hle & _).
  destruct (process_items_spec uuid4 directory es es [] [] [] w1)
    as (kept & new & w2 & -> & Hkept & Hnew & Htag & Hle'); try done.
  exists added, (Dir (kept ++ new)), w2. split_and!; try done.
  - by constructor.
  - apply tagged_Dir. intros e [He|He]%elem_of_app.
    + rewrite fmap_app, (Forall2_item_kept_names _ _ Hkept).
      by apply (proj1 (Forall_forall _ _) Htag).
    + apply (proj1 (Forall_forall _ _) Hnew) in He as (item & c & -> & _).
      left. apply skipped_meta.
  - lia.
Qed.

(** X13: [process_directory] on a directory does not raise.  Afterwards
    the directory has its meta file beside it, and so has every item that
    is not skipped, in the directory and in the directories below that are
    not skipped.  The tree is the one before with files added: entries
    keep their names and their order, files and skipped entries are as
    they were, and every entry added is a file named after an item that is
    not skipped, with ".meta", where no entry of that name was. *)
Theorem process_directory_tags_tree uuid4 names directory name es w :
  ∃ added n' w',
    process_directory uuid4 names directory name (Dir es) w = (added, n', w', None)
    ∧ grown (Dir es) n'
    ∧ tagged n' = true
    ∧ name +:+ ".meta" ∈ names ++ added.*1
    ∧ Forall (λ e, ∃ c, e = (name +:+ ".meta", File c) ∧ e.1 ∉ names) added
    ∧ next_uuid w ≤ next_uuid w'.
Proof. by apply (processes_Dir uuid4 (Dir es) es). Qed.

Lemma process_items_tagged uuid4 directory base :
  ∀ items kept w,
    Forall (λ e, skipped e.1 = true
                 ∨ (e.1 +:+ ".meta" ∈ base ∧ tagged e.2 = true
                    ∧ ∀ es0, e.2 = Dir es0 →
                        ∀ names directory name w,
                          name +:+ ".meta" ∈ names →
                          ∃ w', process_directory uuid4 names directory name e.2 w
                                = ([], e.2, w', None)
                                ∧ next_uuid w' = next_uuid w)) items →
    ∃ w', process_items (process_directory uuid4) uuid4 directory base items kept [] w
          = (kept ++ items, [], w', None)
          ∧ next_uuid w' = next_uuid w.
Proof.
  induction items as [|[item child] rest IH]; intros kept w Hitems.
  - simpl. rewrite app_nil_r. by eexists.
  - apply Forall_cons in Hitems as [Hitem Hrest]. simpl in *.
    rewrite (cons_middle _ kept rest), app_assoc.
    destruct (skipped item) eqn:Hskip; [by apply IH|].
    destruct Hitem as [?|(Hmeta & Htag & Hrec)]; [done|].
    rewrite app_nil_r.
    destruct child as [c|es0].
    + destruct (create_meta_file_cases uuid4 base (path_join directory item) item false w)
        as (added & w1 & -> & _ & _ & _ & Hsame).
      destruct (Hsame Hmeta) as [-> Hw1].
      destruct (IH (kept ++ [(item, File c)]) w1 Hrest) as (w' & -> & Hw').
      exists w'. split; [done | congruence].
    + destruct (Hrec es0 eq_refl base (path_join directory item) item w Hmeta)
        as (w1 & -> & Hw1).
      destruct (IH (kept ++ [(item, Dir es0)]) w1 Hrest) as (w' & -> & Hw').
      exists w'. split; [done | congruence].
Qed.

Lemma process_directory_tagged uuid4 n :
  ∀ es, n = Dir es → tagged n = true →
    ∀ names directory name w,
      name +:+ ".meta" ∈ names →
      ∃ w', process_directory uuid4 names directory name n w = ([], n, w', None)
            ∧ next_uuid w' = next_uuid w.
Proof.
  induction n as [c|es IH] using node_nested_ind; [done|].
  intros ? [= <-] Htag names directory name w Hmeta.
  rewrite process_directory_Dir.
  destruct (create_meta_file_cases uuid4 names directory name true w)
    as (added & w1 & -> & _ & _ & _ & Hsame).
  destruct (Hsame Hmeta) as [-> Hw1].
  destruct (process_items_tagged uuid4 directory es.*1 es [] w1) as (w' & -> & Hw').
  - apply Forall_forall. intros e He.
    destruct (proj1 (tagged_Dir es) Htag e He) as [?|[? Ht]]; [by left | right].
    split_and!; [done.. |]. intros es0 He0.
    apply (proj1 (Forall_forall _ _) IH e He es0 He0 Ht).
  - exists w'. simpl. rewrite app_nil_r. split; [done | congruence].
Qed.

(** X14: on a directory that has its meta file beside it and whose items
    all have theirs, [process_directory] adds nothing, leaves the tree as
    it is and draws no uuid; so a second run of [process_directory], on
    the tree the first one left and whatever uuids it would draw, changes
    nothing. *)
Theorem process_directory_twice uuid4 uuid4' names directory name es w w0 :
  (tagged (Dir es) = true → name +:+ ".meta" ∈ names →
     ∃ w', process_directory uuid4 names directory name (Dir es) w
           = ([], Dir es, w', None)
           ∧ next_uuid w' = next_uuid w)
  ∧ ∃ added n' w1 w2,
      process_directory uuid4 names directory name (Dir es) w = (added, n', w1, None)
      ∧ process_directory uuid4' (names ++ added.*1) directory name n' w0
        = ([], n', w2, None)
      ∧ next_uuid w2 = next_uuid w0.
Proof.
  split.
  - intros Htag Hmeta. by apply (process_directory_tagged uuid4 (Dir es) es).
  - destruct (process_directory_tags_tree uuid4 names directory name es w)
      as (added & n' & w1 & Hrun & Hgrown & Htag & Hmeta & _).
    inversion Hgrown as [|? kept new _ _]; subst.
    destruct (process_directory_tagged uuid4' (Dir (kept ++ new)) _ eq_refl Htag
                (names ++ added.*1) directory name w0 Hmeta) as (w2 & Hrun2 & Hw2).
    by exists added, (Dir (kept ++ new)), w1, w2.
Qed.

Lemma set_entry_same name n es : entry name es = Some n → set_entry name n es = es.
Proof.
  induction es as [|[item n0] es IH]; simpl; [done|].
  destruct (String.eqb item name); [by intros [= ->]|]. intros H. by rewrite IH.
Qed.

Lemma set_entry_names name n es : (set_entry name n es).*1 = es.*1.
Proof.
  induction es as [|[item n0] es IH]; [done|]. cbn [set_entry].
  destruct (String.eqb item name); [done|]. rewrite !fmap_cons. by rewrite IH.
Qed.

Lemma entry_set_entry name n n' es l :
  entry name es = Some n → entry name (set_entry name n' es ++ l) = Some n'.
Proof.
  induction es as [|[item n0] es IH]; simpl; [done|].
  destruct (String.eqb item name) eqn:He; simpl; rewrite He; [done|]. apply IH.
Qed.

(** X15: the script run where [WindsurfUnityMCP] is missing prints that and
    writes nothing.  Where it is a regular file without meta file, the
    script writes the meta file of a folder beside it and then raises
    [NotADirectoryError], without printing "Done!".  Where it is a
    directory, the script does not raise and prints "Done!" last; the
    directory then has its meta file beside it and every item in it that
    is not skipped has one, and the tree is the one before with meta files
    added. *)
Theorem main_outcomes uuid4 cwd w :
  (entry base_dir cwd = None →
     main uuid4 cwd w
     = (cwd, print w "Error: WindsurfUnityMCP directory not found", None))
  ∧ (∀ c, entry base_dir cwd = Some (File c) →
       "WindsurfUnityMCP.meta" ∉ cwd.*1 →
       ∃ text,
         format folder_meta_template (generate_guid (uuid4 (next_uuid w))) = Return text
         ∧ main uuid4 cwd w
           = (cwd ++ [("WindsurfUnityMCP.meta", File text)],
              Shell (S (next_uuid w))
                (stdout w ++ ["Processing WindsurfUnityMCP...";
                              "Created meta file: WindsurfUnityMCP.meta"]),
              Some (NotADirectoryError "WindsurfUnityMCP")))
  ∧ (∀ es, entry base_dir cwd = Some (Dir es) →
       ∃ cwd' w' n',
         main uuid4 cwd w = (cwd', w', None)
         ∧ last (stdout w') = Some "Done!"
         ∧ entry base_dir cwd' = Some n'
         ∧ grown (Dir es) n'
         ∧ tagged n' = true
         ∧ "WindsurfUnityMCP.meta" ∈ cwd'.*1).
Proof.
  unfold main. split_and!.
  - by intros ->.
  - intros c Hc Hmeta. rewrite Hc.
    destruct (format_template base_dir true) as [rest Hrest].
    change (template_for base_dir true) with folder_meta_template in Hrest.
    eexists. split; [apply Hrest|].
    change (process_directory uuid4 (cwd.*1) base_dir base_dir (File c) ?w0)
      with (match create_meta_file uuid4 (cwd.*1) base_dir base_dir true w0 with
            | (added, w1, Some e) => (added, File c, w1, Some e)
            | (added, w1, None) => (added, File c, w1, Some (NotADirectoryError base_dir))
            end).
    unfold create_meta_file. rewrite bool_decide_eq_false_2 by done.
    change (template_for base_dir true) with folder_meta_template. rewrite Hrest.
    rewrite (set_entry_same base_dir (File c) cwd) by done.
    unfold print. simpl. by rewrite <-app_assoc.
  - intros es Hes. rewrite Hes.
    destruct (processes_Dir uuid4 (Dir es) es eq_refl (cwd.*1) base_dir base_dir
                (print w ("Processing " +:+ base_dir +:+ "...")))
      as (added & n' & w' & -> & Hgrown & Htag & Hmeta & _).
    eexists _, _, n'. split_and!; try done.
    + simpl. by rewrite last_snoc.
    + by eapply entry_set_entry.
    + by rewrite fmap_app, set_entry_names.
Qed.

Lemma main_outcomes_witness :
  (main (λ _, "123e4567-e89b-42d3-a456-426614174000")
     [("WindsurfUnityMCP", File "")] (Shell 0 [])).2
  = Some (NotADirectoryError "WindsurfUnityMCP").
Proof.
  destruct (proj1 (proj2 (main_outcomes (λ _, "123e4567-e89b-42d3-a456-426614174000")
                            [("WindsurfUnityMCP", File "")] (Shell 0 []))) "")
    as (text & _ & ->).
  - reflexivity.
  - intros H. apply list_elem_of_singleton in H. discriminate.
  - reflexivity.
Defined.

(** * The discovery surface and frames nobody asked for *)

(** X16: [list_resources] lists one entry for each route and no other, in
    the order of the routes; the uri of an entry is the function name its
    route sends to the executor, the properties of its schema are the
    fields of the request model of the route, in the same order, and a
    default the schema gives is the default of the field. *)
Theorem list_resources_matches_routes :
  (∀ r, r ∈ routes)
  ∧ Forall2 (λ res r,
       uri res = function_of r
       ∧ Forall2 (λ p f, p.1 = f.1 ∧ (p.2 = None ∨ p.2 = f.2))
           (schema_properties res) (request_fields r))
     list_resources routes.
Proof.
  split.
  - intros []; set_solver.
  - repeat (constructor;
      [split; [reflexivity|];
       repeat (constructor; [split; [reflexivity | first [by left | by right]] |]);
       constructor |]).
    constructor.
Qed.



(** * Clients that cannot be answered *)

Lemma disconnect_active s websocket w :
  NoDup (active_connections s) →
  w ∈ active_connections (disconnect s websocket).1
  ↔ w ≠ websocket ∧ w ∈ active_connections s.
Proof.
  intros Hnd. unfold disconnect.
  destruct (list_remove websocket (active_connections s)) as [l|] eqn:Hl.
  - apply list_remove_Some in Hl as (Hin & Hsub & Hnot & Hrest).
    assert (w ∈ l ↔ w ≠ websocket ∧ w ∈ active_connections s) as Hiff.
    { split.
      - intros Hw. split; [|by eapply elem_of_sublist].
        intros ->. by apply Hnot.
      - intros [? ?]. by apply Hrest. }
    simpl. by case_decide.
  - apply list_remove_None in Hl. simpl. split; [|by intros [_ ?]].
    intros Hw. split; [|done]. by intros ->.
Qed.

Lemma connect_active s websocket client_type :
  active_connections (connect s websocket client_type)
  = active_connections s ++ [websocket].
Proof. unfold connect. by destruct (String.eqb client_type "unity"). Qed.

Lemma sessions_active_step parse σ ev σ' :
  Inv σ →
  (∀ w, is_Some (sessions σ !! w) ↔ w ∈ active_connections (st σ)) →
  step parse σ ev = Some σ' →
  ∀ w, is_Some (sessions σ' !! w) ↔ w ∈ active_connections (st σ').
Proof.
  intros HI Hq (s1 & (Ha & _ & _) & Hc)%step_cases w.
  destruct Hc as [Hc ->|w' ct Hw' -> ->|w' s2 Hc -> ->].
  - destruct Hc as (-> & _). rewrite Ha. apply Hq.
  - rewrite connect_active, elem_of_app, list_elem_of_singleton, Ha, <-Hq.
    rewrite lookup_insert. case_decide as Hww.
    + subst. split; [by right | by intros _].
    + split; [by left | by intros [?|?]].
  - destruct Hc as (Ha' & _).
    rewrite disconnect_active by (rewrite Ha', Ha; by eapply active_nodup).
    rewrite Ha', Ha, <-Hq, lookup_delete. case_decide as Hww.
    + subst. split; [by intros [? ?] | by intros [? _]].
    + split; [done | by intros [_ ?]].
Qed.

Lemma sessions_active_reachable parse σ :
  reachable parse σ → ∀ w, is_Some (sessions σ !! w) ↔ w ∈ active_connections (st σ).
Proof.
  intros [evs Hr].
  assert (Inv boot ∧ ∀ w, is_Some (sessions boot !! w) ↔ w ∈ active_connections (st boot))
    as Hb.
  { split; [apply Inv_boot|]. intros w. simpl. rewrite lookup_empty.
    split; [by intros [? ?] | by intros ?%elem_of_nil]. }
  revert Hb Hr. generalize boot. induction evs as [|ev evs IH]; intros σ0 [HI Hq] Hr.
  - by simplify_eq/=.
  - simpl in Hr. destruct (step parse σ0 ev) as [σ1|] eqn:Hs; [|done].
    apply (IH σ1); [|done]. split; [by eapply Inv_step | by eapply sessions_active_step].
Qed.



(** X19: a client whose connection cannot be written to and whose request
    is answered at once, for want of a function name or of an executor, is
    dropped by that request: both writes of the reply fail, the endpoint
    ends, and the connection is no longer active; the executor slot, the
    pending map and the suspended calls are as before, and no frame was
    written. *)
Theorem unanswerable_client_is_dropped parse σ websocket client_type obj m text σ' :
  reachable parse σ →
  sessions σ !! websocket = Some client_type →
  client_type ≠ "unity" →
  broken (st σ) !! websocket = Some text →
  falsy (get m "function") = true ∨ unity_connection (st σ) = None →
  step parse σ (EvReceive websocket obj m) = Some σ' →
  (websocket ∈ active_connections (st σ))
  ∧ (websocket ∉ active_connections (st σ'))
  ∧ sessions σ' = delete websocket (sessions σ)
  ∧ unity_connection (st σ') = unity_connection (st σ)
  ∧ pending_requests (st σ') = pending_requests (st σ)
  ∧ tasks σ' = tasks σ
  ∧ sent (st σ') = sent (st σ).
Proof.
  intros Hr Hs Hct Hb Hcase Hstep.
  pose proof (Inv_reachable parse σ Hr) as HI.
  assert (websocket ∈ active_connections (st σ)) as Hact.
  { apply (sessions_active_reachable parse σ Hr). by rewrite Hs. }
  assert (unity_connection (st σ) ≠ Some websocket) as Hu.
  { intros Hu%(executor_declared_reachable parse σ Hr). congruence. }
  assert (∃ s1, websocket_request (st σ) (now σ) websocket obj m
                = (s1, Raise (RuntimeError text))
                ∧ active_connections s1 = active_connections (st σ)
                ∧ unity_connection s1 = unity_connection (st σ)
                ∧ pending_requests s1 = pending_requests (st σ)
                ∧ sent s1 = sent (st σ)) as (s1 & Hreq & Ha1 & Hu1 & Hp1 & Hs1).
  { unfold websocket_request, websocket_except, send_to_unity_begin, send_json.
    destruct (falsy (get m "function")) eqn:Hfn.
    - rewrite Hb. simpl. rewrite Hb. by eexists.
    - destruct Hcase as [?|Hnone]; [done|]. rewrite Hnone. simpl. rewrite Hb.
      by eexists. }
  simpl in Hstep. rewrite Hs in Hstep. case_decide; [done|].
  injection Hstep as <-. unfold websocket_message.
  apply String.eqb_neq in Hct. rewrite Hct, Hreq. simpl.
  unfold websocket_abort.
  match goal with |- context [disconnect ?s2 websocket] =>
    pose proof (disconnect_active s2 websocket websocket) as Hd;
    assert (active_connections s2 = active_connections (st σ)) as Ha2 by done;
    assert (unity_connection s2 = unity_connection (st σ)) as Hu2 by done;
    assert (pending_requests s2 = pending_requests (st σ)) as Hp2 by done;
    assert (sent s2 = sent (st σ)) as Hs2 by done;
    revert Hd Ha2 Hu2 Hp2 Hs2; generalize s2 end.
  intros s2 Hd Ha2 Hu2 Hp2 Hs2.
  split_and!; [done | | done | | | done |].
  - rewrite Hd; [by intros [? _]|]. rewrite Ha2. by eapply active_nodup.
  - unfold disconnect. destruct (list_remove _ _); [|done]. simpl.
    rewrite decide_False by congruence. done.
  - unfold disconnect. destruct (list_remove _ _); [|done]. simpl. by case_decide.
  - unfold disconnect. destruct (list_remove _ _); [|done]. simpl. by case_decide.
Qed.

Lemma unanswerable_client_is_dropped_witness :
  1 ∉ active_connections
        (st (after [EvOpen 1 "mcp_client"; EvBreak 1 "closed";
                    EvReceive 1 100%N (ping (Some "r1"))])).
Proof.
  refine (proj1 (proj2 (unanswerable_client_is_dropped parse_wire
            (after [EvOpen 1 "mcp_client"; EvBreak 1 "closed"]) 1 "mcp_client" 100%N
            (ping (Some "r1")) "closed" _ _ _ _ _ _ _))).
  - exists [EvOpen 1 "mcp_client"; EvBreak 1 "closed"]. vm_compute. reflexivity.
  - vm_compute. reflexivity.
  - discriminate.
  - vm_compute. reflexivity.
  - right. vm_compute. reflexivity.
  - vm_compute. reflexivity.
Defined.
